(** * The snake game of [LevServerSite/snake/game.js]

    A shallow embedding of the script: its global variables and the part of
    the page it talks to (message header, interval timers, keydown listeners,
    image readiness, [Math.random]) form an explicit state; every function of
    the script is a function on that state.  Canvas drawing and [console.log]
    write to nothing the script reads back and are left out. *)

From Stdlib Require Import ZArith QArith Qround List String Bool Lia Lqa.
From Stdlib Require Import Floats.PrimFloat Floats.SpecFloat Floats.FloatOps.
Import ListNotations.

Local Open Scope string_scope.
Local Open Scope list_scope.
Local Open Scope Z_scope.

(** ** JavaScript numbers

    [Math.random() * 17 + 1] is computed on IEEE 754 binary64 values: every
    operation returns the exact result rounded to the nearest representable
    number, ties going to the even significand.  Numbers are represented by
    the rationals they denote.  A binary64 number is a multiple of [2^-1074]
    with a significand below [2^53]; [round] works on the value scaled by
    [2^1074], where the unit in the last place is a power of two in [Z].
    Overflow to infinity (at [2^1024]) is not modelled: the script never
    leaves the interval from 0 to 32 in floating point. *)
Module Float64.

Definition scale : Q := inject_Z (2 ^ 1074).

(** Nearest integer, ties to even. *)
Definition rne_int (q : Q) : Z :=
  let f := Qfloor q in
  match Qcompare (q - inject_Z f) (1 # 2) with
  | Lt => f
  | Gt => f + 1
  | Eq => if Z.even f then f else f + 1
  end.

(** Exponent, relative to [2^-1074], of the unit in the last place at [z]:
    53 significant bits, and never below the subnormal spacing. *)
Definition ulp_exp (z : Q) : Z := Z.max (Z.log2 (Qfloor z) - 52) 0.

Definition rne_scaled (z : Q) : Z :=
  let u := 2 ^ ulp_exp z in rne_int (z / inject_Z u) * u.

Definition round_pos (x : Q) : Q :=
  (inject_Z (rne_scaled (x * scale)) / scale)%Q.

Definition round (x : Q) : Q :=
  if Qle_bool 0 x then round_pos x else (- round_pos (- x))%Q.

Definition mul (a b : Q) : Q := round (a * b).
Definition add (a b : Q) : Q := round (a + b).

(** The representable numbers: significand [m] of at most 53 bits, exponent
    [e] counted from [2^-1074]. *)
Definition is_double (q : Q) : Prop :=
  exists m e : Z,
    Z.abs m < 2 ^ 53 /\ 0 <= e <= 2045 /\
    (q * scale == inject_Z (m * 2 ^ e))%Q.

(** The two largest numbers below 1. *)
Definition pred_one : Q := (1 - 1 / inject_Z (2 ^ 53))%Q.
Definition pred_pred_one : Q := (1 - 1 / inject_Z (2 ^ 52))%Q.

(** The value of a finite [spec_float], for comparison with the kernel's
    hardware floats. *)
Definition of_spec (f : spec_float) : option Q :=
  match f with
  | S754_zero _ => Some 0%Q
  | S754_finite s m e =>
      let v := (inject_Z (Zpos m) * (if Z.leb 0 e then inject_Z (2 ^ e)
                                     else / inject_Z (2 ^ (- e))))%Q in
      Some (if s then (- v)%Q else v)
  | _ => None
  end.

End Float64.

(** ** Constants of the game *)

Definition arenaWidthBoxes : Z := 17.
Definition arenaHeightBoxes : Z := 15.
Definition arenaX0Boxes : Z := 1.
Definition arenaY0Boxes : Z := 3.
Definition boxSidePxls : Z := 32.

(** The two cell computations of [generateFoodCoords] on the kernel's
    hardware floats, compared with the same computations in [Float64]. *)
Definition same_value (f : float) (q : Q) : bool :=
  match Float64.of_spec (Prim2SF f) with
  | Some v => Qeq_bool v q
  | None => false
  end.

Definition cells_agree (f : float) : bool :=
  match Float64.of_spec (Prim2SF f) with
  | Some r =>
      same_value (f * 17 + 1)%float
        (Float64.add (Float64.mul r (inject_Z arenaWidthBoxes))
                     (inject_Z arenaX0Boxes))
      && same_value (f * 15 + 3)%float
           (Float64.add (Float64.mul r (inject_Z arenaHeightBoxes))
                        (inject_Z arenaY0Boxes))
  | None => false
  end.

Record Coord := mkCoord { x : Z; y : Z }.

(** The values [snakeDir] takes once it is defined: the strings
    ["left"], ["up"], ["right"], ["down"]. *)
Module Dir.
Inductive t := left | up | right | down.
Definition eqb (a b : t) : bool :=
  match a, b with
  | left, left | up, up | right, right | down, down => true
  | _, _ => false
  end.
End Dir.

(** [innerHTML] and [style.color] of the element [game-message-id]. *)
Record Message := mkMessage { innerHTML : string; color : string }.

(** The one function the script registers as an event listener. *)
Inductive Callback := direction_fn.

(** What the script can hold in [keyDownListener]. *)
Inductive JsValue := JsUndefined | JsFunction (f : Callback).

Definition Listener : Type := string * Callback.

Definition listener_eqb (a b : Listener) : bool :=
  String.eqb (fst a) (fst b) &&
  match snd a, snd b with direction_fn, direction_fn => true end.

Inductive Image := groundImg | foodImg.

(** The part of the page and of the runtime the script reads and writes. *)
Record Page := mkPage {
  messageHeader : Message;
  intervals : list (positive * Z);   (* active setInterval timers: handle, delay *)
  nextHandle : positive;
  listeners : list Listener;         (* event listeners of [document] *)
  groundImg_complete : bool;
  foodImg_complete : bool;
  random : nat -> Q;                 (* the values Math.random will return *)
  draws : nat                        (* how many of them were consumed *)
}.

(** The script's variables; [game] is [None] while it is [undefined] or
    [null], [snakeDir] is [None] while it is [undefined]. *)
Record State := mkState {
  snake : list Coord;
  game : option positive;
  snakeDir : option Dir.t;
  score : Z;
  foodCoords : Coord;
  gameFrameRateHz : Z;
  page : Page
}.

Definition set_page (p : Page) (st : State) : State :=
  mkState (snake st) (game st) (snakeDir st) (score st) (foodCoords st)
          (gameFrameRateHz st) p.
Definition set_snake (s : list Coord) (st : State) : State :=
  mkState s (game st) (snakeDir st) (score st) (foodCoords st)
          (gameFrameRateHz st) (page st).
Definition set_game (g : option positive) (st : State) : State :=
  mkState (snake st) g (snakeDir st) (score st) (foodCoords st)
          (gameFrameRateHz st) (page st).
Definition set_snakeDir (d : option Dir.t) (st : State) : State :=
  mkState (snake st) (game st) d (score st) (foodCoords st)
          (gameFrameRateHz st) (page st).
Definition set_score (n : Z) (st : State) : State :=
  mkState (snake st) (game st) (snakeDir st) n (foodCoords st)
          (gameFrameRateHz st) (page st).
Definition set_foodCoords (c : Coord) (st : State) : State :=
  mkState (snake st) (game st) (snakeDir st) (score st) c
          (gameFrameRateHz st) (page st).
Definition set_gameFrameRateHz (hz : Z) (st : State) : State :=
  mkState (snake st) (game st) (snakeDir st) (score st) (foodCoords st)
          hz (page st).

Definition set_messageHeader (m : Message) (p : Page) : Page :=
  mkPage m (intervals p) (nextHandle p) (listeners p) (groundImg_complete p)
         (foodImg_complete p) (random p) (draws p).
Definition set_intervals (l : list (positive * Z)) (p : Page) : Page :=
  mkPage (messageHeader p) l (nextHandle p) (listeners p)
         (groundImg_complete p) (foodImg_complete p) (random p) (draws p).
Definition set_nextHandle (h : positive) (p : Page) : Page :=
  mkPage (messageHeader p) (intervals p) h (listeners p)
         (groundImg_complete p) (foodImg_complete p) (random p) (draws p).
Definition set_listeners (l : list Listener) (p : Page) : Page :=
  mkPage (messageHeader p) (intervals p) (nextHandle p) l
         (groundImg_complete p) (foodImg_complete p) (random p) (draws p).
Definition set_complete (img : Image) (p : Page) : Page :=
  match img with
  | groundImg =>
      mkPage (messageHeader p) (intervals p) (nextHandle p) (listeners p)
             true (foodImg_complete p) (random p) (draws p)
  | foodImg =>
      mkPage (messageHeader p) (intervals p) (nextHandle p) (listeners p)
             (groundImg_complete p) true (random p) (draws p)
  end.
Definition set_draws (n : nat) (p : Page) : Page :=
  mkPage (messageHeader p) (intervals p) (nextHandle p) (listeners p)
         (groundImg_complete p) (foodImg_complete p) (random p) n.

(** ** The runtime: random numbers, timers, listeners *)

Definition Math_random (p : Page) : Q * Page :=
  (random p (draws p), set_draws (S (draws p)) p).

(** [setInterval] hands out a fresh positive handle. *)
Definition setInterval (delay : Z) (p : Page) : positive * Page :=
  (nextHandle p,
   set_nextHandle (Pos.succ (nextHandle p))
     (set_intervals (intervals p ++ [(nextHandle p, delay)]) p)).

(** [clearInterval] of a value that is no active handle does nothing. *)
Definition clearInterval (g : option positive) (p : Page) : Page :=
  match g with
  | Some h =>
      set_intervals (filter (fun t => negb (Pos.eqb (fst t) h)) (intervals p)) p
  | None => p
  end.

(** [addEventListener] appends the listener unless it is already there; its
    return value is [undefined]. *)
Definition addEventListener (type : string) (f : Callback)
    (ls : list Listener) : list Listener * JsValue :=
  (if existsb (listener_eqb (type, f)) ls then ls else ls ++ [(type, f)],
   JsUndefined).

(** [removeEventListener] drops the listener with that type and callback; a
    callback argument that is no function matches nothing. *)
Definition removeEventListener (type : string) (v : JsValue)
    (ls : list Listener) : list Listener :=
  match v with
  | JsFunction f => filter (fun l => negb (listener_eqb (type, f) l)) ls
  | JsUndefined => ls
  end.

(** ** The script *)

(** [const keyDownListener = document.addEventListener("keydown", ...)]:
    the listeners of the document after that line, and the constant. *)
Definition initial_listeners : list Listener :=
  fst (addEventListener "keydown" direction_fn []).
Definition keyDownListener : JsValue :=
  snd (addEventListener "keydown" direction_fn []).

(** The arithmetic of [generateFoodCoords] on the two random numbers it
    draws. *)
Definition foodCoordsFrom (rx ry : Q) : Coord :=
  {| x := Qfloor (Float64.add (Float64.mul rx (inject_Z arenaWidthBoxes))
                              (inject_Z arenaX0Boxes)) * boxSidePxls;
     y := Qfloor (Float64.add (Float64.mul ry (inject_Z arenaHeightBoxes))
                              (inject_Z arenaY0Boxes)) * boxSidePxls |}.

Definition generateFoodCoords (p : Page) : Coord * Page :=
  let (rx, p1) := Math_random p in
  let (ry, p2) := Math_random p1 in
  (foodCoordsFrom rx ry, p2).

Definition setGameMessage (message : string) (color : string) (st : State)
    : State :=
  set_page (set_messageHeader (mkMessage message color) (page st)) st.

Definition keys_left : Z := 37.
Definition keys_up : Z := 38.
Definition keys_right : Z := 39.
Definition keys_down : Z := 40.

Definition dir_is (d : Dir.t) (v : option Dir.t) : bool :=
  match v with Some d' => Dir.eqb d' d | None => false end.

(** The keydown listener [direction]; [preventDefault] has no effect on the
    state.  The four assignments are tried one after the other, each seeing
    the value left by the previous ones. *)
Definition direction (code : Z) (st : State) : State :=
  if existsb (Z.eqb code) [keys_left; keys_up; keys_right; keys_down] then
    let st := match snakeDir st with
              | None => setGameMessage "Yum yum carrots!" "green" st
              | Some _ => st
              end in
    let st := if (code =? keys_left) && negb (dir_is Dir.right (snakeDir st))
              then set_snakeDir (Some Dir.left) st else st in
    let st := if (code =? keys_up) && negb (dir_is Dir.down (snakeDir st))
              then set_snakeDir (Some Dir.up) st else st in
    let st := if (code =? keys_right) && negb (dir_is Dir.left (snakeDir st))
              then set_snakeDir (Some Dir.right) st else st in
    let st := if (code =? keys_down) && negb (dir_is Dir.up (snakeDir st))
              then set_snakeDir (Some Dir.down) st else st in
    st
  else st.

Definition stopGame (reasonForStopping : string) (st : State) : State :=
  let st := set_page (clearInterval (game st) (page st)) st in
  let st := set_game None st in
  let st := setGameMessage reasonForStopping "red" st in
  set_page (set_listeners
              (removeEventListener "keydown" keyDownListener
                 (listeners (page st))) (page st)) st.

Definition tryStartingGame (st : State) : State :=
  if foodImg_complete (page st) && groundImg_complete (page st)
     && match game st with None => true | Some _ => false end
  then
    let (h, p) := setInterval (gameFrameRateHz st * 10) (page st) in
    let st := set_game (Some h) (set_page p st) in
    setGameMessage "Press an arrow key to start moving!" "green" st
  else st.

Definition imageLoaded (st : State) : State := tryStartingGame st.

(** [speedSlider.onchange], with the number the slider's value converts to. *)
Definition speedSlider_onchange (value : Z) (st : State) : State :=
  let st := set_gameFrameRateHz (25 - value) st in
  let st := stopGame "unknown" st in
  tryStartingGame st.

Definition coord_eqb (a b : Coord) : bool := (x a =? x b) && (y a =? y b).

Definition selfMessage : string := "Oh no! Snake ate itself!".
Definition wallMessage : string := "Oh no! Snake ran into the wall and died!".

(** The loop calls [stopGame] at every body segment the head lies on. *)
Definition snakeStrikesSelf (st : State) : State :=
  match snake st with
  | [] | [_] => st
  | head :: body =>
      fold_left (fun s b => if coord_eqb head b then stopGame selfMessage s
                            else s) body st
  end.

Definition isSnakeWest (snakeX : Z) : bool := snakeX <? boxSidePxls.
Definition isSnakeEast (snakeX : Z) : bool := boxSidePxls * 17 <? snakeX.
Definition isSnakeNorth (snakeY : Z) : bool := snakeY <? 3 * boxSidePxls.
Definition isSnakeSouth (snakeY : Z) : bool := snakeY >? boxSidePxls * 17.

Definition outsideArena (c : Coord) : bool :=
  isSnakeWest (x c) || isSnakeEast (x c) || isSnakeNorth (y c)
  || isSnakeSouth (y c).

(** "Add to score if head collides with food ... else, remove end of snake". *)
Definition eatOrShrink (head : Coord) (st : State) : State :=
  if coord_eqb head (foodCoords st) then
    let st := set_score (score st + 1) st in
    let (c, p) := generateFoodCoords (page st) in
    set_foodCoords c (set_page p st)
  else set_snake (removelast (snake st)) st.

Definition checkWalls (head : Coord) (st : State) : State :=
  if outsideArena head then stopGame wallMessage st else st.

(** "Update position of snake's head": four tests on [snakeDir] in a row. *)
Definition moveHead (d : option Dir.t) (head : Coord) : Coord :=
  let snakeX := x head in
  let snakeY := y head in
  let snakeX := if dir_is Dir.left d then snakeX - boxSidePxls else snakeX in
  let snakeX := if dir_is Dir.right d then snakeX + boxSidePxls else snakeX in
  let snakeY := if dir_is Dir.up d then snakeY - boxSidePxls else snakeY in
  let snakeY := if dir_is Dir.down d then snakeY + boxSidePxls else snakeY in
  {| x := snakeX; y := snakeY |}.

Definition unshift (newHead : Coord) (st : State) : State :=
  set_snake (newHead :: snake st) st.

(** One tick.  Reading [snake[0].x] of an empty array raises a TypeError,
    before anything was changed: [None]. *)
Definition drawGame (st : State) : option State :=
  match snake st with
  | [] => None
  | head :: _ =>
      let st := eatOrShrink head st in
      let st := checkWalls head st in
      let newHead := moveHead (snakeDir st) head in
      let st := unshift newHead st in
      Some (snakeStrikesSelf st)
  end.

(** ** The page as a transition system *)

Inductive Event :=
| Onload (img : Image)            (* an image finished loading: [onload] *)
| KeyDown (keyCode : Z)
| SliderChange (value : Z)
| Interval (handle : positive). (* a timer set by [setInterval] fires *)

Definition run_listener (code : Z) (st : State) (l : Listener) : State :=
  if String.eqb (fst l) "keydown" then
    match snd l with direction_fn => direction code st end
  else st.

Definition dispatch_keydown (code : Z) (st : State) : State :=
  fold_left (run_listener code) (listeners (page st)) st.

(** [fire ev st] is [None] when the runtime cannot deliver [ev] in [st]
    (a timer that is not active).  A tick that raises leaves the state as
    it was. *)
Definition fire (ev : Event) (st : State) : option State :=
  match ev with
  | Onload img => Some (imageLoaded (set_page (set_complete img (page st)) st))
  | KeyDown code => Some (dispatch_keydown code st)
  | SliderChange v => Some (speedSlider_onchange v st)
  | Interval h =>
      if existsb (fun t => Pos.eqb (fst t) h) (intervals (page st)) then
        match drawGame st with Some st' => Some st' | None => Some st end
      else None
  end.

Fixpoint run (evs : list Event) (st : State) : option State :=
  match evs with
  | [] => Some st
  | ev :: evs' =>
      match fire ev st with Some st' => run evs' st' | None => None end
  end.

(** The state once the script has been evaluated: one segment at cell
    (9, 10), a first food position, the keydown listener registered, no
    image loaded yet.  [html] is whatever the page shows in the message
    header. *)
Definition init (rnd : nat -> Q) (html : Message) : State :=
  let p0 := mkPage html [] 1%positive [] false false rnd 0 in
  let (food, p1) := generateFoodCoords p0 in
  mkState [ {| x := 9 * boxSidePxls; y := 10 * boxSidePxls |} ]
          None None 0 food 10
          (set_listeners initial_listeners p1).

Inductive reachable (rnd : nat -> Q) (html : Message) : State -> Prop :=
| reach_init : reachable rnd html (init rnd html)
| reach_fire st ev st' :
    reachable rnd html st -> fire ev st = Some st' -> reachable rnd html st'.

(** ** Vocabulary of the properties *)

(** The head of the snake lies on one of the other segments. *)
Definition selfHit (st : State) : bool :=
  match snake st with
  | [] => false
  | head :: body => existsb (coord_eqb head) body
  end.

(** Across a tick from [st] to [st']: the segments behind the new head are
    the old snake without its last segment. *)
Definition tailDropped (st st' : State) : Prop :=
  tl (snake st') = removelast (snake st).

(** Across a tick from [st] to [st']: the score went up by one and the food
    is what [generateFoodCoords] returned on the next two random numbers. *)
Definition ateFood (st st' : State) : Prop :=
  score st' = score st + 1 /\
  foodCoords st' = fst (generateFoodCoords (page st)) /\
  draws (page st') = S (S (draws (page st))).

(** The direction an arrow key asks for: [keys] in the listener. *)
Definition requested (code : Z) : option Dir.t :=
  if code =? keys_left then Some Dir.left
  else if code =? keys_up then Some Dir.up
  else if code =? keys_right then Some Dir.right
  else if code =? keys_down then Some Dir.down
  else None.

Definition opposite (d : Dir.t) : Dir.t :=
  match d with
  | Dir.left => Dir.right
  | Dir.right => Dir.left
  | Dir.up => Dir.down
  | Dir.down => Dir.up
  end.

(** The state a tick leaves, before [snakeStrikesSelf] looks at it. *)
Definition moved (head : Coord) (st : State) : State :=
  unshift (moveHead (snakeDir st) head) (checkWalls head (eatOrShrink head st)).

(** A timer is pending: a tick can still fire. *)
Definition timerPending (st : State) : Prop := intervals (page st) <> [].

(** The timer and the listeners in every state the page can reach: the
    keydown listener is registered; [game] holds the handle of the only
    active timer, and while it does the header shows one of the two green
    messages. *)
Definition page_ok (st : State) : Prop :=
  listeners (page st) = initial_listeners /\
  match game st with
  | Some h =>
      map fst (intervals (page st)) = [h] /\
      (innerHTML (messageHeader (page st))
         = "Press an arrow key to start moving!" \/
       innerHTML (messageHeader (page st)) = "Yum yum carrots!")
  | None => intervals (page st) = []
  end.

Definition invariant (st : State) : Prop := snake st <> [] /\ page_ok st.

(** Sample inputs: a random source that always returns 1/2, and an empty
    message header. *)
Definition half : nat -> Q := fun _ => (1 # 2)%Q.
Definition blank : Message := mkMessage "" "".

(** Random numbers whose second one, the first y draw, is the largest
    number below 1. *)
Definition worst_draw : nat -> Q :=
  fun n => match n with 1%nat => Float64.pred_one | _ => (1 # 2)%Q end.

(** A play that ends with the snake on the west wall and a double key press
    that turns it back onto itself.  It is run with every random number
    equal to 1/2, which puts the food on cell (9, 10). *)
Definition play_to_west_wall : list Event :=
  [ Onload groundImg; Onload foodImg;
    KeyDown keys_left; Interval 1;
    KeyDown keys_up; Interval 1;
    KeyDown keys_right; Interval 1;
    KeyDown keys_down; Interval 1;
    KeyDown keys_left; Interval 1 ]
  ++ repeat (Interval 1) 8
  ++ [ KeyDown keys_up; KeyDown keys_right ].

Definition loaded_page (m : Message) (timers : list (positive * Z))
    (n : nat) : Page :=
  mkPage m timers 2%positive [("keydown", direction_fn)] true true half n.

(** The game just started: both images loaded, no key pressed yet. *)
Definition started : State :=
  mkState [ {| x := 288; y := 320 |} ] (Some 1%positive) None 0
          {| x := 288; y := 320 |} 10
          (loaded_page (mkMessage "Press an arrow key to start moving!" "green")
                       [(1%positive, 100)] 2).

(** The state [play_to_west_wall] ends in: head on cell (0, 10), direction
    turned to the right. *)
Definition at_west_wall : State :=
  mkState [ {| x := 0; y := 320 |}; {| x := 32; y := 320 |};
            {| x := 64; y := 320 |} ]
          (Some 1%positive) (Some Dir.right) 2 {| x := 288; y := 320 |} 10
          (loaded_page (mkMessage "Yum yum carrots!" "green")
                       [(1%positive, 100)] 6).

(** The state after the first tick of [started]: the game has stopped. *)
Definition ate_itself : State :=
  mkState [ {| x := 288; y := 320 |}; {| x := 288; y := 320 |} ]
          None None 1 {| x := 288; y := 320 |} 10
          (loaded_page (mkMessage selfMessage "red") [] 4).

(** ** Vocabulary of the properties of the whole page *)

Definition complete (img : Image) (p : Page) : bool :=
  match img with
  | groundImg => groundImg_complete p
  | foodImg => foodImg_complete p
  end.

Definition other (img : Image) : Image :=
  match img with groundImg => foodImg | foodImg => groundImg end.

(** The timer of a running game: the only one, set with the current frame
    rate, and started after both images were there. *)
Definition timer_ok (st : State) : Prop :=
  match game st with
  | Some h =>
      intervals (page st) = [(h, gameFrameRateHz st * 10)] /\
      groundImg_complete (page st) = true /\
      foodImg_complete (page st) = true
  | None => intervals (page st) = []
  end.

(** The key code of a direction: [keys] in the listener, read backwards. *)
Definition key_of (d : Dir.t) : Z :=
  match d with
  | Dir.left => keys_left
  | Dir.up => keys_up
  | Dir.right => keys_right
  | Dir.down => keys_down
  end.

Definition perpendicular (a b : Dir.t) : Prop := a <> b /\ a <> opposite b.

(** A coordinate on the grid of boxes. *)
Definition on_grid (c : Coord) : Prop :=
  (boxSidePxls | x c) /\ (boxSidePxls | y c).

(** Every segment is where one step (or none) from the next segment leads. *)
Fixpoint connected (l : list Coord) : Prop :=
  match l with
  | a :: (b :: _) as rest => (exists d, a = moveHead d b) /\ connected rest
  | _ => True
  end.

(** Segments, score and random draws go together. *)
Definition counters_ok (st : State) : Prop :=
  Z.of_nat (List.length (snake st)) = score st + 1 /\
  Z.of_nat (draws (page st)) = 2 * (score st + 1).

(** What every reachable snake looks like. *)
Definition shape_ok (st : State) : Prop :=
  counters_ok st /\
  Forall on_grid (snake st) /\ on_grid (foodCoords st) /\
  connected (snake st).

(** ** Rounding to nearest is monotone *)

Section Rounding.
Import Float64.
Local Open Scope Q_scope.
Lemma rne_int_bounds (q : Q) : (Qfloor q <= rne_int q <= Qfloor q + 1)%Z.
Proof.
  unfold rne_int. destruct (Qcompare _ _); [destruct (Z.even _)| |]; lia.
Qed.

Lemma rne_int_inject (n : Z) : rne_int (inject_Z n) = n.
Proof.
  unfold rne_int. rewrite Qfloor_Z.
  replace (Qcompare (inject_Z n - inject_Z n) (1 # 2)) with Lt; [reflexivity|].
  symmetry. apply (proj1 (Qlt_alt _ _)). generalize (inject_Z n); intros x. lra.
Qed.

Lemma rne_int_mono (p q : Q) : p <= q -> (rne_int p <= rne_int q)%Z.
Proof.
  intros Hpq.
  pose proof (Qfloor_resp_le _ _ Hpq) as Hf.
  destruct (Z.eq_dec (Qfloor p) (Qfloor q)) as [E|N].
  - unfold rne_int. rewrite <- E.
    destruct (Qcompare_spec (p - inject_Z (Qfloor p)) (1 # 2)) as [H1|H1|H1];
    destruct (Qcompare_spec (q - inject_Z (Qfloor p)) (1 # 2)) as [H2|H2|H2];
    try lia; try (destruct (Z.even (Qfloor p)); lia); exfalso; lra.
  - pose proof (rne_int_bounds p). pose proof (rne_int_bounds q). lia.
Qed.

Lemma ulp_exp_nonneg (z : Q) : (0 <= ulp_exp z)%Z.
Proof. unfold ulp_exp. lia. Qed.

Lemma ulp_exp_mono (p q : Q) : p <= q -> (ulp_exp p <= ulp_exp q)%Z.
Proof.
  intros H. unfold ulp_exp.
  pose proof (Z.log2_le_mono _ _ (Qfloor_resp_le _ _ H)). lia.
Qed.

Lemma ulp_exp_upper (z : Q) : z < inject_Z (2 ^ (ulp_exp z + 53)).
Proof.
  apply Qlt_le_trans with (inject_Z (Qfloor z + 1)); [apply Qlt_floor|].
  rewrite <- Zle_Qle.
  assert (0 <= ulp_exp z)%Z by apply ulp_exp_nonneg.
  destruct (Z_lt_le_dec 0 (Qfloor z)) as [Hp|Hn].
  - destruct (Z.log2_spec _ Hp) as [_ Hu].
    assert (Z.succ (Z.log2 (Qfloor z)) <= ulp_exp z + 53)%Z by (unfold ulp_exp; lia).
    pose proof (Z.pow_le_mono_r 2 _ _ ltac:(lia) H0). lia.
  - assert (1 <= 2 ^ (ulp_exp z + 53))%Z; [|lia].
    change 1%Z with (2 ^ 0)%Z at 1. apply Z.pow_le_mono_r; lia.
Qed.

Lemma ulp_exp_lower (z : Q) :
  (0 < ulp_exp z)%Z -> inject_Z (2 ^ (ulp_exp z + 52)) <= z.
Proof.
  intros Ht.
  apply Qle_trans with (inject_Z (Qfloor z)); [|apply Qfloor_le].
  rewrite <- Zle_Qle.
  assert (E : (ulp_exp z + 52 = Z.log2 (Qfloor z))%Z) by (unfold ulp_exp in *; lia).
  assert (Hp : (0 < Qfloor z)%Z).
  { destruct (Z_lt_le_dec 0 (Qfloor z)) as [Hp|Hn]; [exact Hp|].
    rewrite (Z.log2_nonpos _ Hn) in E. lia. }
  rewrite E. apply (Z.log2_spec _ Hp).
Qed.

Lemma pow2_pos (t : Z) : (0 <= t)%Z -> 0 < inject_Z (2 ^ t).
Proof.
  intros H. change 0 with (inject_Z 0). rewrite <- Zlt_Qlt.
  apply Z.pow_pos_nonneg; lia.
Qed.

Lemma rne_scaled_mono (p q : Q) : 0 <= p -> p <= q -> (rne_scaled p <= rne_scaled q)%Z.
Proof.
  intros H0 Hpq. unfold rne_scaled.
  pose proof (ulp_exp_mono _ _ Hpq) as Ht.
  pose proof (ulp_exp_nonneg p) as Hp0.
  pose proof (pow2_pos _ Hp0) as Hup.
  destruct (Z.eq_dec (ulp_exp p) (ulp_exp q)) as [E|N].
  - rewrite <- E. apply Z.mul_le_mono_nonneg_r.
    + apply Z.pow_nonneg; lia.
    + apply rne_int_mono. apply Qmult_le_compat_r; [exact Hpq|].
      apply Qlt_le_weak, Qinv_lt_0_compat, Hup.
  - assert (Hq0 : (0 < ulp_exp q)%Z) by lia.
    pose proof (pow2_pos _ (ulp_exp_nonneg q)) as Huq.
    apply Z.le_trans with (2 ^ (ulp_exp q + 52))%Z.
    + apply Z.le_trans with (2 ^ 53 * 2 ^ ulp_exp p)%Z.
      * apply Z.mul_le_mono_nonneg_r; [apply Z.pow_nonneg; lia|].
        rewrite <- (rne_int_inject (2 ^ 53)). apply rne_int_mono.
        apply Qlt_le_weak, Qlt_shift_div_r; [exact Hup|].
        rewrite <- inject_Z_mult, <- Z.pow_add_r, Z.add_comm by lia.
        apply ulp_exp_upper.
      * rewrite <- Z.pow_add_r by lia. apply Z.pow_le_mono_r; lia.
    + rewrite Z.add_comm, Z.pow_add_r by lia.
      apply Z.mul_le_mono_nonneg_r; [apply Z.pow_nonneg; lia|].
      rewrite <- (rne_int_inject (2 ^ 52)) at 1. apply rne_int_mono.
      apply Qle_shift_div_l; [exact Huq|].
      rewrite <- inject_Z_mult, <- Z.pow_add_r, Z.add_comm by lia.
      apply ulp_exp_lower, Hq0.
Qed.

Lemma rne_scaled_nonneg (p : Q) : 0 <= p -> (0 <= rne_scaled p)%Z.
Proof.
  intros Hp. unfold rne_scaled.
  pose proof (pow2_pos _ (ulp_exp_nonneg p)) as Hu.
  apply Z.mul_nonneg_nonneg; [|apply Z.pow_nonneg; lia].
  apply Z.le_trans with (Qfloor (p / inject_Z (2 ^ ulp_exp p)));
    [|apply rne_int_bounds].
  change 0%Z with (Qfloor 0). apply Qfloor_resp_le.
  apply Qle_shift_div_l; [exact Hu|]. lra.
Qed.

Lemma scale_pos : 0 < scale.
Proof. reflexivity. Qed.

Lemma round_nonneg_eq (p : Q) : 0 <= p -> round p = round_pos p.
Proof.
  intros Hp. unfold round.
  destruct (Qle_bool 0 p) eqn:E; [reflexivity|].
  apply Qle_bool_iff in Hp. congruence.
Qed.

Lemma round_nonneg (p : Q) : 0 <= p -> 0 <= round p.
Proof.
  intros Hp. rewrite (round_nonneg_eq _ Hp). unfold round_pos.
  apply Qle_shift_div_l; [exact scale_pos|].
  setoid_replace (0 * scale) with (inject_Z 0) by reflexivity.
  rewrite <- Zle_Qle. apply rne_scaled_nonneg.
  apply Qmult_le_0_compat; [exact Hp|apply Qlt_le_weak, scale_pos].
Qed.

Lemma round_mono (p q : Q) : 0 <= p -> p <= q -> round p <= round q.
Proof.
  intros Hp Hpq.
  rewrite (round_nonneg_eq _ Hp), (round_nonneg_eq q) by lra.
  unfold round_pos. apply Qmult_le_compat_r.
  - rewrite <- Zle_Qle. apply rne_scaled_mono.
    + apply Qmult_le_0_compat; [exact Hp|apply Qlt_le_weak, scale_pos].
    + apply Qmult_le_compat_r; [exact Hpq|apply Qlt_le_weak, scale_pos].
  - apply Qlt_le_weak, Qinv_lt_0_compat, scale_pos.
Qed.

Lemma mul_mono (a b k : Q) : 0 <= k -> 0 <= a -> a <= b -> mul a k <= mul b k.
Proof.
  intros Hk Ha Hab. apply round_mono.
  - apply Qmult_le_0_compat; assumption.
  - apply Qmult_le_compat_r; assumption.
Qed.

Lemma add_mono (a b k : Q) : 0 <= k -> 0 <= a -> a <= b -> add a k <= add b k.
Proof. intros Hk Ha Hab. apply round_mono; lra. Qed.

Lemma mul_nonneg (a k : Q) : 0 <= k -> 0 <= a -> 0 <= mul a k.
Proof. intros. apply round_nonneg, Qmult_le_0_compat; assumption. Qed.

(** [Math.floor (r * k + c)] grows with [r]. *)
Lemma floor_affine_mono (a b k c : Q) :
  0 <= k -> 0 <= c -> 0 <= a -> a <= b ->
  (Qfloor (add (mul a k) c) <= Qfloor (add (mul b k) c))%Z.
Proof.
  intros Hk Hc Ha Hab. apply Qfloor_resp_le, add_mono.
  - exact Hc.
  - apply mul_nonneg; assumption.
  - apply mul_mono; assumption.
Qed.

End Rounding.

(** ** Rounding fixes the representable numbers *)

Section Exact.
Import Float64.

Lemma rne_int_comp (p q : Q) : (p == q)%Q -> rne_int p = rne_int q.
Proof.
  intros E. unfold rne_int. rewrite (Qfloor_comp _ _ E).
  rewrite (Qcompare_comp (p - inject_Z (Qfloor q))%Q
             (q - inject_Z (Qfloor q))%Q
             ltac:(rewrite E; reflexivity) (1 # 2)%Q (1 # 2)%Q
             ltac:(reflexivity)).
  reflexivity.
Qed.

Lemma rne_scaled_comp (p q : Q) : (p == q)%Q -> rne_scaled p = rne_scaled q.
Proof.
  intros E. unfold rne_scaled, ulp_exp. rewrite (Qfloor_comp _ _ E).
  f_equal. apply rne_int_comp. rewrite E. reflexivity.
Qed.

Lemma ulp_exp_le_exponent (m e : Z) :
  0 <= m < 2 ^ 53 -> 0 <= e -> 0 <= ulp_exp (inject_Z (m * 2 ^ e)) <= e.
Proof.
  intros Hm He. unfold ulp_exp. rewrite Qfloor_Z.
  split; [lia|]. apply Z.max_lub; [|exact He].
  destruct (Z.eq_dec m 0) as [->|Hnz]; [cbn; lia|].
  assert (Hpos : 0 < m * 2 ^ e).
  { apply Z.mul_pos_pos; [lia|apply Z.pow_pos_nonneg; lia]. }
  assert (Hlt : m * 2 ^ e < 2 ^ (53 + e)).
  { rewrite Z.pow_add_r by lia. apply Z.mul_lt_mono_pos_r; [|lia].
    apply Z.pow_pos_nonneg; lia. }
  apply (Z.log2_lt_pow2 _ _ Hpos) in Hlt. lia.
Qed.

(** Rounding leaves the representable numbers alone. *)
Lemma rne_scaled_exact (m e : Z) :
  0 <= m < 2 ^ 53 -> 0 <= e ->
  rne_scaled (inject_Z (m * 2 ^ e)) = m * 2 ^ e.
Proof.
  intros Hm He. unfold rne_scaled.
  pose proof (ulp_exp_le_exponent m e Hm He) as Ht.
  set (t := ulp_exp (inject_Z (m * 2 ^ e))) in *.
  assert (Hsplit : m * 2 ^ e = m * 2 ^ (e - t) * 2 ^ t).
  { rewrite <- Z.mul_assoc, <- Z.pow_add_r by lia. f_equal. f_equal. lia. }
  assert (Hu : (0 < inject_Z (2 ^ t))%Q) by (apply pow2_pos; lia).
  rewrite (rne_int_comp _ (inject_Z (m * 2 ^ (e - t)))).
  - rewrite rne_int_inject. symmetry. exact Hsplit.
  - rewrite Hsplit at 1. rewrite inject_Z_mult. field.
    intros E. rewrite E in Hu. discriminate.
Qed.

Lemma round_double (q : Q) : is_double q -> (0 <= q)%Q -> (round q == q)%Q.
Proof.
  intros (m & e & Hm & He & Hq) H0.
  rewrite (round_nonneg_eq _ H0). unfold round_pos.
  assert (Hm0 : 0 <= m).
  { destruct (Z_lt_le_dec m 0) as [Hneg|Hok]; [exfalso|exact Hok].
    assert (Hz : (0 <= q * scale)%Q)
      by (apply Qmult_le_0_compat; [exact H0|apply Qlt_le_weak, scale_pos]).
    rewrite Hq in Hz. change 0%Q with (inject_Z 0) in Hz.
    rewrite <- Zle_Qle in Hz.
    assert (0 < 2 ^ e) by (apply Z.pow_pos_nonneg; lia). nia. }
  rewrite (rne_scaled_comp (q * scale) (inject_Z (m * 2 ^ e)) Hq).
  rewrite rne_scaled_exact by lia.
  rewrite <- Hq. field. intros E. pose proof scale_pos as Hs.
  rewrite E in Hs. discriminate.
Qed.
End Exact.

(** ** The representable numbers just below 1 *)

Section BelowOne.
Import Float64.

(** Between two neighbouring multiples of [2^1021] (the spacing of the
    numbers in [1/2, 1), scaled) there is no number with a 53-bit
    significand. *)
Lemma dyadic_gap (m e b : Z) :
  Z.abs m < 2 ^ 53 -> 0 <= e -> 0 <= b <= 1 ->
  m * 2 ^ e < (2 ^ 53 - b) * 2 ^ 1021 ->
  m * 2 ^ e <= (2 ^ 53 - b - 1) * 2 ^ 1021.
Proof.
  intros Hm He Hb Hlt.
  destruct (Z_le_gt_dec 1021 e) as [Hbig|Hsmall].
  - replace e with (e - 1021 + 1021) in * by lia.
    rewrite Z.pow_add_r in * by lia.
    assert (HP : 0 < 2 ^ 1021) by (apply Z.pow_pos_nonneg; lia).
    revert Hlt HP. generalize (2 ^ 1021). intros P Hlt HP.
    rewrite Z.mul_assoc in *.
    apply Z.mul_lt_mono_pos_r in Hlt; [|exact HP].
    apply Z.mul_le_mono_nonneg_r; lia.
  - replace (2 ^ 1021) with (2 * 2 ^ 1020) by reflexivity.
    assert (HQ : 0 < 2 ^ 1020) by (apply Z.pow_pos_nonneg; lia).
    assert (Hpe : 0 < 2 ^ e <= 2 ^ 1020).
    { split; [apply Z.pow_pos_nonneg; lia|apply Z.pow_le_mono_r; lia]. }
    revert HQ Hpe. generalize (2 ^ 1020) (2 ^ e). intros P E HQ Hpe.
    change (2 ^ 53) with 9007199254740992 in *. nia.
Qed.

Lemma scaled_le (a b : Z) (q r : Q) :
  (q * scale == inject_Z a)%Q -> (r * scale == inject_Z b)%Q ->
  a <= b -> (q <= r)%Q.
Proof.
  intros Hq Hr Hab.
  apply (Qmult_le_r q r scale scale_pos).
  rewrite Hq, Hr, <- Zle_Qle. exact Hab.
Qed.

Lemma scaled_lt (a b : Z) (q r : Q) :
  (q * scale == inject_Z a)%Q -> (r * scale == inject_Z b)%Q ->
  (q < r)%Q -> a < b.
Proof.
  intros Hq Hr Hlt.
  apply (Qmult_lt_r q r scale scale_pos) in Hlt.
  rewrite Hq, Hr, <- Zlt_Qlt in Hlt. exact Hlt.
Qed.

Lemma one_scaled : (1 * scale == inject_Z ((2 ^ 53 - 0) * 2 ^ 1021))%Q.
Proof. reflexivity. Qed.

Lemma pred_one_scaled :
  (pred_one * scale == inject_Z ((2 ^ 53 - 1) * 2 ^ 1021))%Q.
Proof. reflexivity. Qed.

Lemma pred_pred_one_scaled :
  (pred_pred_one * scale == inject_Z ((2 ^ 53 - 1 - 1) * 2 ^ 1021))%Q.
Proof. reflexivity. Qed.

(** [pred_one] is the largest number below 1 ... *)
Lemma is_double_below_one (r : Q) :
  is_double r -> (r < 1)%Q -> (r <= pred_one)%Q.
Proof.
  intros (m & e & Hm & He & Hr) Hlt.
  apply (scaled_le _ _ _ _ Hr pred_one_scaled).
  replace (2 ^ 53 - 1) with (2 ^ 53 - 0 - 1) by reflexivity.
  apply dyadic_gap; try lia.
  exact (scaled_lt _ _ _ _ Hr one_scaled Hlt).
Qed.

(** ... and [pred_pred_one] the one before it. *)
Lemma is_double_below_pred_one (r : Q) :
  is_double r -> (r < pred_one)%Q -> (r <= pred_pred_one)%Q.
Proof.
  intros (m & e & Hm & He & Hr) Hlt.
  apply (scaled_le _ _ _ _ Hr pred_pred_one_scaled).
  apply dyadic_gap; try lia.
  exact (scaled_lt _ _ _ _ Hr pred_one_scaled Hlt).
Qed.

Lemma pred_one_is_double : is_double pred_one.
Proof.
  exists (2 ^ 53 - 1), 1021. split; [|split].
  - reflexivity.
  - lia.
  - reflexivity.
Qed.

End BelowOne.

(** ** Where [generateFoodCoords] puts the food *)

Section Food.
Import Float64.

(** The rounding of [Float64] gives what the hardware gives on the
    computation of the y cell at the largest random number: the kernel's
    binary64 evaluation of [0.9999999999999999 * 15 + 3] is [18]. *)
Lemma hardware_agrees_at_pred_one :
  of_spec (Prim2SF 0x1.fffffffffffffp-1%float) = Some pred_one /\
  exists q,
    of_spec (Prim2SF (0x1.fffffffffffffp-1 * 15 + 3)%float) = Some q /\
    (q == 18)%Q /\
    (add (mul pred_one (inject_Z arenaHeightBoxes)) (inject_Z arenaY0Boxes)
     == 18)%Q.
Proof.
  split; [vm_compute; reflexivity|].
  eexists. split; [vm_compute; reflexivity|].
  split; vm_compute; reflexivity.
Qed.

(** So do they on a sample of random numbers: small, large, subnormal,
    and the two nearest to 1. *)
Example cells_agree_on_samples :
  forallb cells_agree
    [ 0; 0x1p-1074; 0x1p-1022; 0x1.0624dd2f1a9fcp-10;
      0x1.999999999999ap-4; 0.25; 0x1.3333333333333p-2; 0.5;
      0x1.1111111111111p-4; 0x1.5555555555555p-1; 0x1.6666666666666p-1;
      0x1.ccccccccccccdp-1; 0x1.fae147ae147aep-1;
      0x1.ffffffffffffep-1; 0x1.fffffffffffffp-1 ]%float = true.
Proof. vm_compute. reflexivity. Qed.

Lemma arena_constants_nonneg :
  (0 <= inject_Z arenaWidthBoxes)%Q /\ (0 <= inject_Z arenaX0Boxes)%Q /\
  (0 <= inject_Z arenaHeightBoxes)%Q /\ (0 <= inject_Z arenaY0Boxes)%Q.
Proof. repeat split; discriminate. Qed.

Lemma foodCoordsFrom_x_range (rx ry : Q) :
  is_double rx -> (0 <= rx < 1)%Q ->
  arenaX0Boxes * boxSidePxls <= x (foodCoordsFrom rx ry)
    <= (arenaX0Boxes + arenaWidthBoxes - 1) * boxSidePxls.
Proof.
  intros Hd [H0 H1]. pose proof (is_double_below_one _ Hd H1) as Hmax.
  destruct arena_constants_nonneg as (Hw & Hx & _).
  unfold foodCoordsFrom; cbn [x].
  assert (Hlo := floor_affine_mono 0 rx (inject_Z arenaWidthBoxes)
                   (inject_Z arenaX0Boxes) Hw Hx (Qle_refl 0) H0).
  assert (Hhi := floor_affine_mono rx pred_one (inject_Z arenaWidthBoxes)
                   (inject_Z arenaX0Boxes) Hw Hx H0 Hmax).
  replace (Qfloor (add (mul 0 (inject_Z arenaWidthBoxes))
                       (inject_Z arenaX0Boxes))) with 1 in Hlo
    by (vm_compute; reflexivity).
  replace (Qfloor (add (mul pred_one (inject_Z arenaWidthBoxes))
                       (inject_Z arenaX0Boxes))) with 17 in Hhi
    by (vm_compute; reflexivity).
  unfold arenaX0Boxes, arenaWidthBoxes, boxSidePxls in *. lia.
Qed.

Lemma foodCoordsFrom_y_range (rx ry : Q) :
  is_double ry -> (0 <= ry < 1)%Q ->
  arenaY0Boxes * boxSidePxls <= y (foodCoordsFrom rx ry)
    <= (arenaY0Boxes + arenaHeightBoxes) * boxSidePxls.
Proof.
  intros Hd [H0 H1]. pose proof (is_double_below_one _ Hd H1) as Hmax.
  destruct arena_constants_nonneg as (_ & _ & Hh & Hy).
  unfold foodCoordsFrom; cbn [y].
  assert (Hlo := floor_affine_mono 0 ry (inject_Z arenaHeightBoxes)
                   (inject_Z arenaY0Boxes) Hh Hy (Qle_refl 0) H0).
  assert (Hhi := floor_affine_mono ry pred_one (inject_Z arenaHeightBoxes)
                   (inject_Z arenaY0Boxes) Hh Hy H0 Hmax).
  replace (Qfloor (add (mul 0 (inject_Z arenaHeightBoxes))
                       (inject_Z arenaY0Boxes))) with 3 in Hlo
    by (vm_compute; reflexivity).
  replace (Qfloor (add (mul pred_one (inject_Z arenaHeightBoxes))
                       (inject_Z arenaY0Boxes))) with 18 in Hhi
    by (vm_compute; reflexivity).
  unfold arenaY0Boxes, arenaHeightBoxes, boxSidePxls in *. lia.
Qed.

(** Every random number but the largest keeps the food inside the arena. *)
Lemma foodCoordsFrom_y_inside (rx ry : Q) :
  is_double ry -> (0 <= ry < pred_one)%Q ->
  arenaY0Boxes * boxSidePxls <= y (foodCoordsFrom rx ry)
    < (arenaY0Boxes + arenaHeightBoxes) * boxSidePxls.
Proof.
  intros Hd [H0 H1].
  assert (H1' : (ry < 1)%Q).
  { apply Qlt_trans with pred_one; [exact H1|reflexivity]. }
  split; [apply (foodCoordsFrom_y_range rx ry Hd); split; assumption|].
  pose proof (is_double_below_pred_one _ Hd H1) as Hmax.
  destruct arena_constants_nonneg as (_ & _ & Hh & Hy).
  unfold foodCoordsFrom; cbn [y].
  assert (Hhi := floor_affine_mono ry pred_pred_one
                   (inject_Z arenaHeightBoxes) (inject_Z arenaY0Boxes)
                   Hh Hy H0 Hmax).
  replace (Qfloor (add (mul pred_pred_one (inject_Z arenaHeightBoxes))
                       (inject_Z arenaY0Boxes))) with 17 in Hhi
    by (vm_compute; reflexivity).
  unfold arenaY0Boxes, arenaHeightBoxes, boxSidePxls in *. lia.
Qed.

Lemma foodCoordsFrom_y_at_pred_one (rx : Q) :
  y (foodCoordsFrom rx pred_one)
  = (arenaY0Boxes + arenaHeightBoxes) * boxSidePxls.
Proof. unfold foodCoordsFrom; cbn [y]. vm_compute. reflexivity. Qed.

(** C5 (the code leaves the arena): when [Math.random] returns the largest
    number below 1, [1 - 2^-53], for the y coordinate, [generateFoodCoords]
    returns the y cell [arenaY0Boxes + arenaHeightBoxes = 18], the first row
    below the arena, instead of a cell in [3, 18): the product rounds to
    [15 - 2^-49], and adding 3 falls half-way between [18 - 2^-48] and [18],
    which rounds to [18].  Here it happens to the first food of the game. *)
Theorem generateFoodCoords_leaves_arena :
  is_double pred_one /\ (0 <= pred_one < 1)%Q /\
  foodCoords (init worst_draw blank)
  = {| x := 9 * boxSidePxls;
       y := (arenaY0Boxes + arenaHeightBoxes) * boxSidePxls |} /\
  ~ (y (foodCoords (init worst_draw blank))
     < (arenaY0Boxes + arenaHeightBoxes) * boxSidePxls).
Proof.
  split; [exact pred_one_is_double|].
  split; [split; [discriminate|reflexivity]|].
  assert (E : foodCoords (init worst_draw blank)
              = {| x := 9 * boxSidePxls;
                   y := (arenaY0Boxes + arenaHeightBoxes) * boxSidePxls |})
    by (vm_compute; reflexivity).
  split; [exact E|]. rewrite E. cbn. lia.
Qed.

End Food.

(** ** The functions of the script, field by field *)

Section Script.

Lemma keyDownListener_undefined : keyDownListener = JsUndefined.
Proof. reflexivity. Qed.

Lemma stopGame_fields (reason : string) (st : State) :
  snake (stopGame reason st) = snake st /\
  snakeDir (stopGame reason st) = snakeDir st /\
  score (stopGame reason st) = score st /\
  foodCoords (stopGame reason st) = foodCoords st /\
  gameFrameRateHz (stopGame reason st) = gameFrameRateHz st /\
  draws (page (stopGame reason st)) = draws (page st) /\
  random (page (stopGame reason st)) = random (page st).
Proof. destruct (game st) eqn:E; unfold stopGame; cbn; rewrite ?E; repeat split. Qed.

Lemma stopGame_game (reason : string) (st : State) :
  game (stopGame reason st) = None.
Proof. reflexivity. Qed.

Lemma stopGame_message (reason : string) (st : State) :
  messageHeader (page (stopGame reason st)) = mkMessage reason "red".
Proof. reflexivity. Qed.

Lemma stopGame_listeners (reason : string) (st : State) :
  listeners (page (stopGame reason st)) = listeners (page st).
Proof. destruct (game st) eqn:E; unfold stopGame; cbn; rewrite ?E; reflexivity. Qed.

Lemma stopGame_intervals (reason : string) (st : State) :
  intervals (page (stopGame reason st))
  = match game st with
    | Some h => filter (fun t => negb (Pos.eqb (fst t) h)) (intervals (page st))
    | None => intervals (page st)
    end.
Proof. destruct (game st) eqn:E; unfold stopGame; cbn; rewrite ?E; reflexivity. Qed.

Lemma stopGame_idem (reason : string) (st : State) :
  stopGame reason (stopGame reason st) = stopGame reason st.
Proof. reflexivity. Qed.

End Script.

Section Tick.

Lemma strike_loop (head : Coord) (body : list Coord) (st : State) :
  fold_left (fun s b => if coord_eqb head b then stopGame selfMessage s
                        else s) body st
  = if existsb (coord_eqb head) body then stopGame selfMessage st else st.
Proof.
  revert st.
  induction body as [|b body IH]; intros st; cbn [fold_left existsb];
    [reflexivity|].
  rewrite IH. destruct (coord_eqb head b); cbn [orb]; [|reflexivity].
  destruct (existsb _ body); [apply stopGame_idem|reflexivity].
Qed.

Lemma snakeStrikesSelf_spec (st : State) :
  snakeStrikesSelf st = if selfHit st then stopGame selfMessage st else st.
Proof.
  unfold snakeStrikesSelf, selfHit.
  destruct (snake st) as [|h [|b body]]; try reflexivity.
  apply strike_loop.
Qed.

Lemma eatOrShrink_frame (head : Coord) (st : State) :
  game (eatOrShrink head st) = game st /\
  snakeDir (eatOrShrink head st) = snakeDir st /\
  gameFrameRateHz (eatOrShrink head st) = gameFrameRateHz st /\
  messageHeader (page (eatOrShrink head st)) = messageHeader (page st) /\
  intervals (page (eatOrShrink head st)) = intervals (page st) /\
  listeners (page (eatOrShrink head st)) = listeners (page st).
Proof.
  unfold eatOrShrink. destruct (coord_eqb head (foodCoords st));
    repeat split.
Qed.

Lemma checkWalls_frame (head : Coord) (st : State) :
  snake (checkWalls head st) = snake st /\
  snakeDir (checkWalls head st) = snakeDir st /\
  score (checkWalls head st) = score st /\
  foodCoords (checkWalls head st) = foodCoords st /\
  draws (page (checkWalls head st)) = draws (page st) /\
  listeners (page (checkWalls head st)) = listeners (page st).
Proof.
  unfold checkWalls. destruct (outsideArena head); [|repeat split].
  pose proof (stopGame_fields wallMessage st) as (? & ? & ? & ? & ? & ? & ?).
  pose proof (stopGame_listeners wallMessage st). repeat split; assumption.
Qed.

Lemma drawGame_Some (st : State) (head : Coord) (rest : list Coord) :
  snake st = head :: rest ->
  drawGame st = Some (snakeStrikesSelf (moved head st)).
Proof.
  intros Hs. unfold drawGame, moved. rewrite Hs.
  destruct (checkWalls_frame head (eatOrShrink head st)) as (_ & -> & _).
  destruct (eatOrShrink_frame head st) as (_ & -> & _).
  reflexivity.
Qed.

Lemma snakeStrikesSelf_frame (st : State) :
  snake (snakeStrikesSelf st) = snake st /\
  snakeDir (snakeStrikesSelf st) = snakeDir st /\
  score (snakeStrikesSelf st) = score st /\
  foodCoords (snakeStrikesSelf st) = foodCoords st /\
  draws (page (snakeStrikesSelf st)) = draws (page st) /\
  listeners (page (snakeStrikesSelf st)) = listeners (page st).
Proof.
  rewrite snakeStrikesSelf_spec. destruct (selfHit st); [|repeat split].
  pose proof (stopGame_fields selfMessage st) as (? & ? & ? & ? & ? & ? & ?).
  pose proof (stopGame_listeners selfMessage st). repeat split; assumption.
Qed.

Lemma moved_snake (head : Coord) (st : State) :
  snake (moved head st)
  = moveHead (snakeDir st) head
    :: (if coord_eqb head (foodCoords st) then snake st
        else removelast (snake st)).
Proof.
  unfold moved, unshift; cbn [snake set_snake].
  destruct (checkWalls_frame head (eatOrShrink head st)) as (-> & _).
  unfold eatOrShrink. destruct (coord_eqb head (foodCoords st)); reflexivity.
Qed.

Lemma removelast_shorter {A : Type} (l : list A) :
  l <> [] -> removelast l <> l.
Proof.
  intros Hne Heq. destruct l as [|a l]; [congruence|].
  pose proof (app_removelast_last a Hne) as Hsplit.
  rewrite Heq in Hsplit. apply (f_equal (@List.length A)) in Hsplit.
  rewrite length_app in Hsplit. cbn in Hsplit. lia.
Qed.

End Tick.

Section TickEffects.

Lemma coord_eqb_true (a b : Coord) :
  coord_eqb a b = true <-> x a = x b /\ y a = y b.
Proof. unfold coord_eqb. rewrite andb_true_iff, !Z.eqb_eq. reflexivity. Qed.

Lemma eatOrShrink_eats (head : Coord) (st : State) :
  coord_eqb head (foodCoords st) = true ->
  snake (eatOrShrink head st) = snake st /\
  score (eatOrShrink head st) = score st + 1 /\
  foodCoords (eatOrShrink head st) = fst (generateFoodCoords (page st)) /\
  draws (page (eatOrShrink head st)) = S (S (draws (page st))).
Proof. intros E. unfold eatOrShrink. rewrite E. repeat split. Qed.

Lemma eatOrShrink_shrinks (head : Coord) (st : State) :
  coord_eqb head (foodCoords st) = false ->
  snake (eatOrShrink head st) = removelast (snake st) /\
  score (eatOrShrink head st) = score st /\
  foodCoords (eatOrShrink head st) = foodCoords st /\
  draws (page (eatOrShrink head st)) = draws (page st).
Proof. intros E. unfold eatOrShrink. rewrite E. repeat split. Qed.

(** What a tick does to the fields the wall and self checks leave alone. *)
Lemma tick_fields (head : Coord) (st : State) :
  let st' := snakeStrikesSelf (moved head st) in
  snake st' = moveHead (snakeDir st) head :: snake (eatOrShrink head st) /\
  snakeDir st' = snakeDir st /\
  score st' = score (eatOrShrink head st) /\
  foodCoords st' = foodCoords (eatOrShrink head st) /\
  draws (page st') = draws (page (eatOrShrink head st)) /\
  listeners (page st') = listeners (page st).
Proof.
  intros st'. subst st'.
  destruct (snakeStrikesSelf_frame (moved head st))
    as (-> & -> & -> & -> & -> & ->).
  unfold moved, unshift; cbn [snake snakeDir score foodCoords page set_snake].
  destruct (checkWalls_frame head (eatOrShrink head st))
    as (-> & -> & -> & -> & -> & ->).
  destruct (eatOrShrink_frame head st) as (_ & -> & _ & _ & _ & ->).
  repeat split.
Qed.

Lemma moveHead_unset (head : Coord) : moveHead None head = head.
Proof. destruct head. reflexivity. Qed.

Lemma selfHit_same_snake (a b : State) :
  snake a = snake b -> selfHit a = selfHit b.
Proof. unfold selfHit. intros ->. reflexivity. Qed.

Lemma cleared_handle (h : positive) (l : list (positive * Z)) :
  ~ In h (map fst (filter (fun t => negb (Pos.eqb (fst t) h)) l)).
Proof.
  intros Hin. apply in_map_iff in Hin. destruct Hin as (t & <- & Ht).
  apply filter_In in Ht. destruct Ht as [_ Ht].
  rewrite Pos.eqb_refl in Ht. discriminate.
Qed.

(** The state of the timer and of the message header after a tick. *)
Lemma tick_stop_state (head : Coord) (st : State) :
  let st' := snakeStrikesSelf (moved head st) in
  if selfHit st' then
    game st' = None /\ messageHeader (page st') = mkMessage selfMessage "red"
  else if outsideArena head then
    game st' = None /\ messageHeader (page st') = mkMessage wallMessage "red"
  else
    game st' = game st /\
    messageHeader (page st') = messageHeader (page st) /\
    intervals (page st') = intervals (page st).
Proof.
  intros st'. subst st'.
  rewrite (selfHit_same_snake _ (moved head st))
    by apply snakeStrikesSelf_frame.
  rewrite snakeStrikesSelf_spec.
  destruct (selfHit (moved head st)); [split; reflexivity|].
  unfold moved, unshift, checkWalls.
  destruct (outsideArena head); [split; reflexivity|].
  cbn [game page messageHeader intervals set_snake].
  destruct (eatOrShrink_frame head st) as (-> & _ & _ & -> & -> & _).
  repeat split.
Qed.

Lemma tick_clears_timer (head : Coord) (st : State) (h : positive) :
  let st' := snakeStrikesSelf (moved head st) in
  game st = Some h -> game st' = None ->
  ~ In h (map fst (intervals (page st'))).
Proof.
  intros st' Hg Hstop. subst st'. revert Hstop.
  rewrite snakeStrikesSelf_spec. unfold moved, unshift, checkWalls.
  destruct (eatOrShrink_frame head st) as (Eg & _ & _ & _ & Ei & _).
  destruct (selfHit _); destruct (outsideArena head); intros Hstop.
  - rewrite stopGame_intervals. cbn [game page intervals set_snake].
    rewrite stopGame_intervals, Eg, Hg. apply cleared_handle.
  - rewrite stopGame_intervals. cbn [game page intervals set_snake].
    rewrite Eg, Hg. apply cleared_handle.
  - cbn [game page intervals set_snake]. rewrite stopGame_intervals, Eg, Hg.
    apply cleared_handle.
  - cbn [game set_snake] in Hstop. congruence.
Qed.

End TickEffects.

(** ** The claims about one tick *)

(** C1: in every tick on a non-empty snake exactly one of two things
    happens: the tail segment is dropped, or the score goes up by one and a
    new food position is drawn; the second happens exactly when the head, as
    it was before the move, lies on the food. *)
Theorem drawGame_drops_tail_xor_eats (st : State) :
  snake st <> [] ->
  exists st',
    drawGame st = Some st' /\
    ((tailDropped st st' /\ ~ ateFood st st' /\
      score st' = score st /\ foodCoords st' = foodCoords st /\
      draws (page st') = draws (page st))
     \/
     (ateFood st st' /\ ~ tailDropped st st' /\ tl (snake st') = snake st)) /\
    (ateFood st st' <->
     exists head, hd_error (snake st) = Some head /\
                  x head = x (foodCoords st) /\ y head = y (foodCoords st)).
Proof.
  intros Hne. destruct (snake st) as [|head rest] eqn:Hs; [congruence|].
  exists (snakeStrikesSelf (moved head st)).
  split; [exact (drawGame_Some st head rest Hs)|].
  destruct (tick_fields head st) as (Esn & _ & Esc & Efo & Edr & _).
  unfold tailDropped, ateFood. rewrite Esn, Esc, Efo, Edr. cbn [tl hd_error].
  destruct (coord_eqb head (foodCoords st)) eqn:E.
  - destruct (eatOrShrink_eats head st E) as (-> & -> & -> & ->).
    apply coord_eqb_true in E. rewrite Hs. split.
    + right. split; [repeat split|]. split; [|reflexivity].
      intros Heq. symmetry in Heq. revert Heq. apply removelast_shorter.
      discriminate.
    + split; [intros _; exists head; tauto|intros _; repeat split].
  - destruct (eatOrShrink_shrinks head st E) as (-> & -> & -> & ->).
    rewrite Hs. split.
    + left. split; [reflexivity|]. split; [|repeat split].
      intros (Hsc & _). lia.
    + split; [intros (Hsc & _); lia|].
      intros (head' & Hh & Hxy). injection Hh as <-.
      apply coord_eqb_true in Hxy. congruence.
Qed.

Lemma drawGame_drops_tail_xor_eats_witness :
  exists st', drawGame (init half blank) = Some st' /\
              ateFood (init half blank) st'.
Proof.
  destruct (drawGame_drops_tail_xor_eats (init half blank))
    as (st' & Hrun & _ & Hate).
  - discriminate.
  - exists st'. split; [exact Hrun|]. apply Hate.
    eexists. split; [reflexivity|]. vm_compute. split; reflexivity.
Defined.

Lemma outsideArena_spec (c : Coord) :
  outsideArena c = true <->
  x c < boxSidePxls \/ boxSidePxls * 17 < x c \/
  y c < 3 * boxSidePxls \/ y c > boxSidePxls * 17.
Proof.
  unfold outsideArena, isSnakeWest, isSnakeEast, isSnakeNorth, isSnakeSouth.
  rewrite !orb_true_iff, !Z.ltb_lt, Z.gtb_ltb, Z.ltb_lt. lia.
Qed.

Lemma moveHead_coords (d : option Dir.t) (c : Coord) :
  x (moveHead d c)
  = match d with
    | Some Dir.left => x c - boxSidePxls
    | Some Dir.right => x c + boxSidePxls
    | _ => x c
    end /\
  y (moveHead d c)
  = match d with
    | Some Dir.up => y c - boxSidePxls
    | Some Dir.down => y c + boxSidePxls
    | _ => y c
    end.
Proof. destruct d as [[| | |]|]; split; reflexivity. Qed.

(** C2: the four wall tests look at the head as it is before the direction
    step of the tick.  If that head is west of [boxSidePxls], east of
    [17 * boxSidePxls], north of [3 * boxSidePxls] or south of
    [17 * boxSidePxls], one of the four booleans is true and the game is
    stopped there and then, with the wall message in red in the header; at
    the end of the tick the game is stopped, its timer is cleared and the
    header shows the wall message (unless the self check of the same tick
    replaced the text).  If the old head is within these bounds the tick does
    not stop the game for a wall, wherever the step takes the head.  The step
    comes after the test: the head of the snake after the tick is the old
    head moved by [boxSidePxls] to the left, to the right, up or down, as
    [snakeDir] says, and not moved while [snakeDir] is unset. *)
Theorem drawGame_checks_walls_before_step
    (st : State) (head : Coord) (rest : list Coord) :
  snake st = head :: rest ->
  exists st' newHead,
    drawGame st = Some st' /\
    nth_error (snake st') 0 = Some newHead /\
    x newHead
    = match snakeDir st with
      | Some Dir.left => x head - boxSidePxls
      | Some Dir.right => x head + boxSidePxls
      | _ => x head
      end /\
    y newHead
    = match snakeDir st with
      | Some Dir.up => y head - boxSidePxls
      | Some Dir.down => y head + boxSidePxls
      | _ => y head
      end /\
    (x head < boxSidePxls \/ boxSidePxls * 17 < x head \/
     y head < 3 * boxSidePxls \/ y head > boxSidePxls * 17 ->
     isSnakeWest (x head) || isSnakeEast (x head)
     || isSnakeNorth (y head) || isSnakeSouth (y head) = true /\
     game (checkWalls head (eatOrShrink head st)) = None /\
     messageHeader (page (checkWalls head (eatOrShrink head st)))
     = mkMessage wallMessage "red" /\
     game st' = None /\
     (forall h, game st = Some h -> ~ In h (map fst (intervals (page st')))) /\
     messageHeader (page st')
     = mkMessage (if selfHit st' then selfMessage else wallMessage) "red") /\
    (boxSidePxls <= x head <= boxSidePxls * 17 /\
     3 * boxSidePxls <= y head <= boxSidePxls * 17 ->
     isSnakeWest (x head) || isSnakeEast (x head)
     || isSnakeNorth (y head) || isSnakeSouth (y head) = false /\
     snake (checkWalls head (eatOrShrink head st))
     = snake (eatOrShrink head st) /\
     game (checkWalls head (eatOrShrink head st)) = game st /\
     (selfHit st' = false ->
      game st' = game st /\
      messageHeader (page st') = messageHeader (page st) /\
      intervals (page st') = intervals (page st))).
Proof.
  intros Hs.
  exists (snakeStrikesSelf (moved head st)), (moveHead (snakeDir st) head).
  split; [exact (drawGame_Some st head rest Hs)|].
  destruct (tick_fields head st) as (Esn & _).
  pose proof (tick_stop_state head st) as Hstop. cbv zeta in Hstop.
  pose proof (tick_clears_timer head st) as Hclr. cbv zeta in Hclr.
  destruct (moveHead_coords (snakeDir st) head) as [Hx Hy].
  fold (outsideArena head).
  split; [rewrite Esn; reflexivity|].
  split; [exact Hx|]. split; [exact Hy|]. split.
  - intros Hout. apply outsideArena_spec in Hout. rewrite Hout in Hstop.
    split; [exact Hout|].
    unfold checkWalls at 1 2. rewrite Hout.
    split; [reflexivity|]. split; [reflexivity|].
    destruct (selfHit (snakeStrikesSelf (moved head st)));
      destruct Hstop as [Hg Hm]; (split; [exact Hg|split; [|exact Hm]]);
      intros h Hh; apply Hclr; assumption.
  - intros Hin.
    assert (Hnot : outsideArena head = false).
    { destruct (outsideArena head) eqn:E; [|reflexivity].
      apply outsideArena_spec in E. lia. }
    rewrite Hnot in Hstop. split; [exact Hnot|].
    unfold checkWalls. rewrite Hnot.
    split; [reflexivity|]. split; [apply eatOrShrink_frame|].
    intros Hself. rewrite Hself in Hstop. exact Hstop.
Qed.

(** The wall test is on the old head: from cell (1, 10) a step to the left
    puts the head on cell (0, 10), west of the arena, and the tick leaves
    the game running. *)
Example step_out_of_arena_is_not_seen :
  let st := set_snakeDir (Some Dir.left)
              (set_snake [ {| x := 1 * boxSidePxls; y := 10 * boxSidePxls |} ]
                 (set_game (Some 1%positive) (init half blank))) in
  exists st',
    drawGame st = Some st' /\
    hd_error (snake st') = Some {| x := 0; y := 10 * boxSidePxls |} /\
    outsideArena {| x := 0; y := 10 * boxSidePxls |} = true /\
    game st' = Some 1%positive.
Proof.
  eexists. split; [vm_compute; reflexivity|].
  vm_compute. repeat split.
Qed.

(** C7: a tick that runs while [snakeDir] is unset returns and leaves the
    head of the snake where it was. *)
Theorem drawGame_unset_direction_keeps_head (st : State) :
  snakeDir st = None ->
  snake st <> [] ->
  exists st',
    drawGame st = Some st' /\
    nth_error (snake st') 0 = nth_error (snake st) 0.
Proof.
  intros Hd Hne. destruct (snake st) as [|head rest] eqn:Hs; [congruence|].
  exists (snakeStrikesSelf (moved head st)).
  split; [exact (drawGame_Some st head rest Hs)|].
  destruct (tick_fields head st) as (-> & _).
  rewrite Hd, moveHead_unset. reflexivity.
Qed.

Lemma drawGame_unset_direction_keeps_head_witness :
  exists st',
    drawGame started = Some st' /\
    nth_error (snake st') 0 = Some {| x := 9 * boxSidePxls;
                                      y := 10 * boxSidePxls |}.
Proof.
  destruct (drawGame_unset_direction_keeps_head started)
    as (st' & Hrun & Hhd).
  - reflexivity.
  - discriminate.
  - exists st'. split; [exact Hrun|exact Hhd].
Defined.

(** ** The handlers, and what every reachable state satisfies *)

Section Handlers.

Lemma tryStartingGame_frame (st : State) :
  snake (tryStartingGame st) = snake st /\
  snakeDir (tryStartingGame st) = snakeDir st /\
  score (tryStartingGame st) = score st /\
  foodCoords (tryStartingGame st) = foodCoords st /\
  listeners (page (tryStartingGame st)) = listeners (page st).
Proof.
  unfold tryStartingGame.
  destruct (foodImg_complete (page st) && groundImg_complete (page st)
            && match game st with None => true | Some _ => false end);
    repeat split.
Qed.

Lemma direction_frame (code : Z) (st : State) :
  snake (direction code st) = snake st /\
  score (direction code st) = score st /\
  foodCoords (direction code st) = foodCoords st /\
  game (direction code st) = game st /\
  intervals (page (direction code st)) = intervals (page st) /\
  listeners (page (direction code st)) = listeners (page st).
Proof.
  unfold direction.
  destruct (existsb (Z.eqb code) _); [|repeat split].
  destruct (snakeDir st); cbv zeta;
    repeat match goal with
           | |- context [if ?b then _ else _] => destruct b
           end; repeat split.
Qed.

Lemma direction_message (code : Z) (st : State) :
  messageHeader (page (direction code st)) = messageHeader (page st) \/
  innerHTML (messageHeader (page (direction code st))) = "Yum yum carrots!".
Proof.
  unfold direction.
  destruct (existsb (Z.eqb code) _); [|left; reflexivity].
  destruct (snakeDir st); cbv zeta;
    repeat match goal with
           | |- context [if ?b then _ else _] => destruct b
           end; (left; reflexivity) || (right; reflexivity).
Qed.

Lemma dispatch_keydown_initial (code : Z) (st : State) :
  listeners (page st) = initial_listeners ->
  dispatch_keydown code st = direction code st.
Proof. unfold dispatch_keydown. intros ->. reflexivity. Qed.

Lemma only_timer_cleared (h : positive) (l : list (positive * Z)) :
  map fst l = [h] ->
  filter (fun t => negb (Pos.eqb (fst t) h)) l = [].
Proof.
  destruct l as [|[a d] [|t l]]; cbn; try discriminate.
  intros [= ->]. rewrite Pos.eqb_refl. reflexivity.
Qed.

Lemma stopGame_page_ok (reason : string) (st : State) :
  page_ok st -> page_ok (stopGame reason st).
Proof.
  intros [Hl Ht]. split.
  - rewrite stopGame_listeners. exact Hl.
  - rewrite stopGame_game, stopGame_intervals.
    destruct (game st) as [h|]; [|exact Ht].
    apply only_timer_cleared, Ht.
Qed.

Lemma stopGame_no_timer (reason : string) (st : State) :
  page_ok st -> intervals (page (stopGame reason st)) = [].
Proof.
  intros H. pose proof (stopGame_page_ok reason st H) as [_ Ht].
  rewrite stopGame_game in Ht. exact Ht.
Qed.

Lemma tryStartingGame_page_ok (st : State) :
  page_ok st -> page_ok (tryStartingGame st).
Proof.
  intros [Hl Ht]. unfold tryStartingGame.
  destruct (foodImg_complete (page st) && groundImg_complete (page st));
    cbn [andb]; [|split; assumption].
  destruct (game st) as [h|] eqn:Eg; [split; [assumption|rewrite Eg; exact Ht]|].
  split; [exact Hl|].
  cbn. rewrite Ht. split; [reflexivity|left; reflexivity].
Qed.

Lemma direction_page_ok (code : Z) (st : State) :
  page_ok st -> page_ok (direction code st).
Proof.
  intros [Hl Ht].
  destruct (direction_frame code st) as (_ & _ & _ & Eg & Ei & El).
  split; [congruence|]. rewrite Eg, Ei.
  destruct (game st) as [h|]; [|exact Ht].
  destruct Ht as [Hh Hm]. split; [exact Hh|].
  destruct (direction_message code st) as [-> | ->]; [exact Hm|right; reflexivity].
Qed.

Lemma moved_page_ok (head : Coord) (st : State) :
  page_ok st -> page_ok (snakeStrikesSelf (moved head st)).
Proof.
  intros Hok.
  assert (H1 : page_ok (eatOrShrink head st)).
  { destruct Hok as [Hl Ht].
    destruct (eatOrShrink_frame head st) as (Eg & _ & _ & Em & Ei & El).
    split; [congruence|]. rewrite Eg, Em, Ei. exact Ht. }
  assert (H2 : page_ok (checkWalls head (eatOrShrink head st))).
  { unfold checkWalls. destruct (outsideArena head);
      [apply stopGame_page_ok|]; exact H1. }
  assert (H3 : page_ok (moved head st)) by exact H2.
  rewrite snakeStrikesSelf_spec.
  destruct (selfHit _); [apply stopGame_page_ok|]; exact H3.
Qed.

Lemma init_invariant (rnd : nat -> Q) (html : Message) :
  invariant (init rnd html).
Proof. split; [discriminate|split; reflexivity]. Qed.

Lemma fire_invariant (ev : Event) (st st' : State) :
  invariant st -> fire ev st = Some st' -> invariant st'.
Proof.
  intros [Hsn Hok] Hfire. destruct ev as [img|code|v|h]; cbn [fire] in Hfire.
  - injection Hfire as <-. unfold imageLoaded.
    set (st1 := set_page (set_complete img (page st)) st).
    assert (Hok1 : page_ok st1) by (destruct img; exact Hok).
    split; [|apply tryStartingGame_page_ok, Hok1].
    destruct (tryStartingGame_frame st1) as (-> & _). exact Hsn.
  - injection Hfire as <-.
    rewrite dispatch_keydown_initial by apply Hok.
    split; [|apply direction_page_ok, Hok].
    destruct (direction_frame code st) as (-> & _). exact Hsn.
  - injection Hfire as <-. unfold speedSlider_onchange.
    set (st1 := set_gameFrameRateHz (25 - v) st).
    assert (Hok1 : page_ok st1) by exact Hok.
    split; [|apply tryStartingGame_page_ok, stopGame_page_ok, Hok1].
    destruct (tryStartingGame_frame (stopGame "unknown" st1)) as (-> & _).
    destruct (stopGame_fields "unknown" st1) as (-> & _). exact Hsn.
  - destruct (existsb _ _); [|discriminate].
    destruct (snake st) as [|head rest] eqn:Hs; [congruence|].
    rewrite (drawGame_Some st head rest Hs) in Hfire. injection Hfire as <-.
    split; [|apply moved_page_ok, Hok].
    destruct (tick_fields head st) as (-> & _). discriminate.
Qed.

Lemma reachable_invariant (rnd : nat -> Q) (html : Message) (st : State) :
  reachable rnd html st -> invariant st.
Proof.
  induction 1 as [|st ev st' _ IH Hfire];
    [apply init_invariant|exact (fire_invariant ev st st' IH Hfire)].
Qed.

Lemma run_reachable (rnd : nat -> Q) (html : Message)
    (evs : list Event) (st st' : State) :
  reachable rnd html st -> run evs st = Some st' -> reachable rnd html st'.
Proof.
  revert st. induction evs as [|ev evs IH]; intros st Hr Hrun; cbn in Hrun.
  - injection Hrun as <-. exact Hr.
  - destruct (fire ev st) as [st1|] eqn:Hf; [|discriminate].
    exact (IH st1 (reach_fire rnd html st ev st1 Hr Hf) Hrun).
Qed.

End Handlers.

(** ** Three states of one play *)

Lemma started_reachable : reachable half blank started.
Proof.
  apply (run_reachable half blank [Onload groundImg; Onload foodImg]
           (init half blank)); [apply reach_init|].
  vm_compute. reflexivity.
Qed.

Lemma at_west_wall_reachable : reachable half blank at_west_wall.
Proof.
  apply (run_reachable half blank play_to_west_wall (init half blank));
    [apply reach_init|].
  vm_compute. reflexivity.
Qed.

Lemma ate_itself_reachable : reachable half blank ate_itself.
Proof.
  apply (reach_fire half blank started (Interval 1));
    [exact started_reachable|].
  vm_compute. reflexivity.
Qed.

(** Two ticks of the play to the west wall, with the snake still going
    left.  From cell (0, 10), west of the arena, the tick stops the game with
    the wall message and the head goes on to x = -32.  One tick earlier, from
    cell (1, 10), the step takes the head out of the arena and the game goes
    on. *)
Lemma drawGame_checks_walls_before_step_witness :
  (reachable half blank (set_snakeDir (Some Dir.left) at_west_wall) /\
   exists st',
     drawGame (set_snakeDir (Some Dir.left) at_west_wall) = Some st' /\
     nth_error (snake st') 0 = Some {| x := -32; y := 320 |} /\
     game st' = None /\
     intervals (page st') = [] /\
     messageHeader (page st') = mkMessage wallMessage "red") /\
  (exists st',
     drawGame (set_snakeDir (Some Dir.left)
                 (set_snake [ {| x := 32; y := 320 |};
                              {| x := 64; y := 320 |};
                              {| x := 96; y := 320 |} ] at_west_wall))
     = Some st' /\
     nth_error (snake st') 0 = Some {| x := 0; y := 320 |} /\
     outsideArena {| x := 0; y := 320 |} = true /\
     game st' = Some 1%positive /\
     messageHeader (page st') = mkMessage "Yum yum carrots!" "green").
Proof.
  split; [split|].
  - apply (run_reachable half blank
             (removelast (removelast play_to_west_wall)) (init half blank));
      [apply reach_init|].
    vm_compute. reflexivity.
  - destruct (drawGame_checks_walls_before_step
                (set_snakeDir (Some Dir.left) at_west_wall)
                {| x := 0; y := 320 |}
                [ {| x := 32; y := 320 |}; {| x := 64; y := 320 |} ])
      as (st' & newHead & Hrun & Hnth & Hx & Hy & Hout & _);
      [reflexivity|].
    destruct Hout as (_ & _ & _ & Hg & Hclr & Hm);
      [left; unfold boxSidePxls; cbn; lia|].
    pose proof Hrun as Hval. vm_compute in Hval. injection Hval as <-.
    eexists. split; [exact Hrun|].
    split; [rewrite Hnth; destruct newHead; cbn in Hx, Hy; subst;
            reflexivity|].
    split; [exact Hg|]. split; [reflexivity|exact Hm].
  - destruct (drawGame_checks_walls_before_step
                (set_snakeDir (Some Dir.left)
                   (set_snake [ {| x := 32; y := 320 |};
                                {| x := 64; y := 320 |};
                                {| x := 96; y := 320 |} ] at_west_wall))
                {| x := 32; y := 320 |}
                [ {| x := 64; y := 320 |}; {| x := 96; y := 320 |} ])
      as (st' & newHead & Hrun & Hnth & Hx & Hy & _ & Hin);
      [reflexivity|].
    destruct Hin as (_ & _ & _ & Hkeep); [unfold boxSidePxls; cbn; lia|].
    pose proof Hrun as Hval. vm_compute in Hval. injection Hval as <-.
    destruct (Hkeep eq_refl) as (Hg & Hm & _).
    eexists. split; [exact Hrun|].
    split; [rewrite Hnth; destruct newHead; cbn in Hx, Hy; subst;
            reflexivity|].
    split; [reflexivity|]. split; [exact Hg|exact Hm].
Defined.

(** ** The claims about the page *)

Lemma selfHit_iff (st : State) :
  selfHit st = true <->
  exists head i c,
    (1 <= i)%nat /\ nth_error (snake st) 0 = Some head /\
    nth_error (snake st) i = Some c /\ x head = x c /\ y head = y c.
Proof.
  unfold selfHit. destruct (snake st) as [|head body].
  - split; [discriminate|]. intros (h & i & c & _ & Hh & _). discriminate.
  - rewrite existsb_exists. split.
    + intros (c & Hin & Heq). apply In_nth_error in Hin.
      destruct Hin as [i Hi]. exists head, (S i), c.
      apply coord_eqb_true in Heq. repeat split; try tauto. lia.
    + intros (h & i & c & Hi & Hh & Hc & Hxy). injection Hh as <-.
      destruct i as [|i]; [lia|]. exists c. split.
      * exact (nth_error_In body i Hc).
      * apply coord_eqb_true. exact Hxy.
Qed.

(** The self check as a function of the state it is given, whatever that
    state is, as long as the header does not show the self message yet. *)
Lemma snakeStrikesSelf_stops_iff (st : State) :
  innerHTML (messageHeader (page st)) <> selfMessage ->
  (game (snakeStrikesSelf st) = None /\
   messageHeader (page (snakeStrikesSelf st)) = mkMessage selfMessage "red")
  <-> selfHit st = true.
Proof.
  intros Hm. rewrite snakeStrikesSelf_spec.
  destruct (selfHit st); split.
  - reflexivity.
  - intros _. split; reflexivity.
  - intros [_ E]. rewrite E in Hm. cbn in Hm. congruence.
  - discriminate.
Qed.

(** C3: on every tick of the running game, once the new head is in front of
    the snake, the game is stopped with the self-collision message if and
    only if the new head has the x and the y of one of the other segments. *)
Theorem drawGame_self_collision_iff
    (rnd : nat -> Q) (html : Message) (st : State) :
  reachable rnd html st ->
  timerPending st ->
  exists st',
    drawGame st = Some st' /\
    ((game st' = None /\
      messageHeader (page st') = mkMessage selfMessage "red")
     <->
     exists head i c,
       (1 <= i)%nat /\ nth_error (snake st') 0 = Some head /\
       nth_error (snake st') i = Some c /\ x head = x c /\ y head = y c).
Proof.
  intros Hr Hpend. destruct (reachable_invariant _ _ _ Hr) as [Hsn [_ Ht]].
  destruct (snake st) as [|head rest] eqn:Hs; [congruence|].
  exists (snakeStrikesSelf (moved head st)).
  split; [exact (drawGame_Some st head rest Hs)|].
  rewrite <- selfHit_iff.
  pose proof (tick_stop_state head st) as Hstop. cbv zeta in Hstop.
  destruct (selfHit (snakeStrikesSelf (moved head st))).
  - tauto.
  - split; [|discriminate]. intros [_ Hmsg]. exfalso.
    destruct (outsideArena head).
    + destruct Hstop as [_ E]. rewrite E in Hmsg. discriminate.
    + destruct Hstop as (_ & E & _). rewrite E in Hmsg.
      destruct (game st) as [h|]; [|contradiction].
      destruct Ht as [_ [Hp|Hp]]; rewrite Hmsg in Hp; discriminate.
Qed.

Lemma drawGame_self_collision_iff_witness :
  exists st',
    drawGame started = Some st' /\
    game st' = None /\
    messageHeader (page st') = mkMessage selfMessage "red".
Proof.
  destruct (drawGame_self_collision_iff half blank started)
    as (st' & Htick & Hiff).
  - apply (run_reachable half blank [Onload groundImg; Onload foodImg]
             (init half blank)); [apply reach_init|].
    vm_compute. reflexivity.
  - discriminate.
  - exists st'. split; [exact Htick|].
    apply Hiff.
    exists {| x := 288; y := 320 |}, 1%nat, {| x := 288; y := 320 |}.
    injection Htick as <-. split; [lia|]. vm_compute. repeat split.
Defined.

(** C6: an arrow key asking for the reverse of the current direction leaves
    [snakeDir] as it is, in the listener and through the dispatch of the
    keydown event. *)
Theorem direction_rejects_reversal (st : State) (d : Dir.t) (code : Z) :
  snakeDir st = Some d ->
  requested code = Some (opposite d) ->
  snakeDir (direction code st) = snakeDir st /\
  snakeDir (dispatch_keydown code st) = snakeDir st.
Proof.
  intros Hd Hreq.
  assert (Hdir : forall s, snakeDir s = Some d ->
                           snakeDir (direction code s) = Some d).
  { intros s Hs. unfold requested in Hreq.
    destruct (Z.eqb_spec code keys_left) as [->|_];
      [|destruct (Z.eqb_spec code keys_up) as [->|_];
        [|destruct (Z.eqb_spec code keys_right) as [->|_];
          [|destruct (Z.eqb_spec code keys_down) as [->|_];
            [|discriminate]]]];
      destruct d; try discriminate;
      unfold direction; repeat (progress (rewrite ?Hs; cbn));
      reflexivity. }
  split; [rewrite Hd; apply Hdir, Hd|].
  rewrite Hd. unfold dispatch_keydown.
  generalize (listeners (page st)). intros ls. revert st Hd.
  induction ls as [|l ls IH]; intros st Hd; cbn [fold_left]; [exact Hd|].
  apply IH. unfold run_listener.
  destruct (String.eqb (fst l) "keydown"); [|exact Hd].
  destruct (snd l). apply Hdir, Hd.
Qed.

Lemma direction_rejects_reversal_witness :
  snakeDir (direction keys_left
              (set_snakeDir (Some Dir.right) (init half blank)))
  = Some Dir.right.
Proof.
  apply (direction_rejects_reversal
           (set_snakeDir (Some Dir.right) (init half blank))
           Dir.right keys_left); reflexivity.
Defined.

(** C8: from the initial one-segment snake on, the snake is never empty;
    every tick runs to its end, and afterwards the snake still has a segment
    and the head the tick computed is at index 0. *)
Theorem snake_never_empty (rnd : nat -> Q) (html : Message) (st : State) :
  reachable rnd html st ->
  (1 <= List.length (snake st))%nat /\
  exists head st',
    nth_error (snake st) 0 = Some head /\
    drawGame st = Some st' /\
    (1 <= List.length (snake st'))%nat /\
    nth_error (snake st') 0 = Some (moveHead (snakeDir st) head) /\
    (List.length (snake st) <= List.length (snake st')
       <= S (List.length (snake st)))%nat.
Proof.
  intros Hr. destruct (reachable_invariant _ _ _ Hr) as [Hsn _].
  destruct (snake st) as [|head rest] eqn:Hs; [congruence|].
  split; [cbn; lia|].
  exists head, (snakeStrikesSelf (moved head st)).
  split; [reflexivity|]. split; [exact (drawGame_Some st head rest Hs)|].
  destruct (tick_fields head st) as (-> & _).
  split; [cbn; lia|]. split; [reflexivity|].
  cbn [List.length].
  destruct (coord_eqb head (foodCoords st)) eqn:E;
    [destruct (eatOrShrink_eats head st E) as (-> & _)
    |destruct (eatOrShrink_shrinks head st E) as (-> & _)];
    rewrite Hs; [cbn; lia|].
  pose proof (app_removelast_last head (l := head :: rest) ltac:(discriminate))
    as Hsplit.
  apply (f_equal (@List.length Coord)) in Hsplit.
  rewrite length_app in Hsplit. cbn [List.length] in *. lia.
Qed.

Lemma snake_never_empty_witness :
  (1 <= List.length (snake (init half blank)))%nat.
Proof.
  apply (snake_never_empty half blank (init half blank)).
  apply reach_init.
Defined.

(** C9: a wall collision does not end the tick.  After [stopGame] has
    stopped the game the step is still applied, the new head is still put in
    front of the snake, and the self check still runs: the header shows the
    self message when the new head lies on the body, the wall message
    otherwise.  In a play that can happen the self message does replace the
    wall message. *)
Theorem drawGame_goes_on_after_wall_stop :
  (forall (st : State) (head : Coord) (rest : list Coord),
     snake st = head :: rest ->
     outsideArena head = true ->
     exists st',
       drawGame st = Some st' /\
       game (checkWalls head (eatOrShrink head st)) = None /\
       messageHeader (page (checkWalls head (eatOrShrink head st)))
       = mkMessage wallMessage "red" /\
       snake st'
       = moveHead (snakeDir st) head
         :: snake (checkWalls head (eatOrShrink head st)) /\
       game st' = None /\
       innerHTML (messageHeader (page st'))
       = if selfHit st' then selfMessage else wallMessage) /\
  (exists (head : Coord) (st' : State),
     reachable half blank at_west_wall /\
     hd_error (snake at_west_wall) = Some head /\
     outsideArena head = true /\
     drawGame at_west_wall = Some st' /\
     messageHeader (page (checkWalls head (eatOrShrink head at_west_wall)))
     = mkMessage wallMessage "red" /\
     messageHeader (page st') = mkMessage selfMessage "red").
Proof.
  split.
  - intros st head rest Hs Hout.
    exists (snakeStrikesSelf (moved head st)).
    split; [exact (drawGame_Some st head rest Hs)|].
    destruct (tick_fields head st) as (Esn & _).
    pose proof (tick_stop_state head st) as Hstop. cbv zeta in Hstop.
    rewrite Hout in Hstop.
    destruct (checkWalls_frame head (eatOrShrink head st)) as (Ecw & _).
    unfold checkWalls in *. rewrite Hout in *.
    split; [reflexivity|]. split; [reflexivity|].
    split; [rewrite Esn, Ecw; reflexivity|].
    destruct (selfHit (snakeStrikesSelf (moved head st)));
      destruct Hstop as [Hg Hm]; rewrite Hm; split; (exact Hg || reflexivity).
  - eexists. eexists.
    split; [exact at_west_wall_reachable|].
    split; [reflexivity|]. split; [reflexivity|].
    split; [vm_compute; reflexivity|].
    split; vm_compute; reflexivity.
Qed.

Lemma drawGame_goes_on_after_wall_stop_witness :
  exists st', drawGame at_west_wall = Some st' /\ game st' = None.
Proof.
  destruct (proj1 drawGame_goes_on_after_wall_stop at_west_wall
              {| x := 0; y := 320 |}
              [ {| x := 32; y := 320 |}; {| x := 64; y := 320 |} ])
    as (st' & Hrun & _ & _ & _ & Hg & _).
  - reflexivity.
  - reflexivity.
  - exists st'. split; [exact Hrun|exact Hg].
Defined.

Lemma dispatch_keydown_score (code : Z) (st : State) :
  score (dispatch_keydown code st) = score st.
Proof.
  unfold dispatch_keydown. generalize (listeners (page st)). intros ls.
  revert st. induction ls as [|l ls IH]; intros st; cbn [fold_left];
    [reflexivity|].
  rewrite IH. unfold run_listener.
  destruct (String.eqb (fst l) "keydown"); [|reflexivity].
  destruct (snd l). apply direction_frame.
Qed.

Lemma speedSlider_onchange_frame (value : Z) (st : State) :
  score (speedSlider_onchange value st) = score st /\
  snake (speedSlider_onchange value st) = snake st /\
  snakeDir (speedSlider_onchange value st) = snakeDir st.
Proof.
  unfold speedSlider_onchange.
  destruct (tryStartingGame_frame
              (stopGame "unknown" (set_gameFrameRateHz (25 - value) st)))
    as (-> & -> & -> & _).
  destruct (stopGame_fields "unknown" (set_gameFrameRateHz (25 - value) st))
    as (-> & -> & -> & _).
  repeat split.
Qed.

Lemma fire_score (ev : Event) (st st' : State) :
  fire ev st = Some st' -> score st <= score st'.
Proof.
  destruct ev as [img|code|v|h]; cbn [fire]; intros Hfire.
  - injection Hfire as <-. unfold imageLoaded.
    destruct (tryStartingGame_frame
                (set_page (set_complete img (page st)) st)) as (_ & _ & -> & _).
    cbn. lia.
  - injection Hfire as <-. rewrite dispatch_keydown_score. lia.
  - injection Hfire as <-.
    destruct (speedSlider_onchange_frame v st) as (-> & _). lia.
  - destruct (existsb _ _); [|discriminate].
    destruct (snake st) as [|head rest] eqn:Hs.
    + unfold drawGame in Hfire. rewrite Hs in Hfire.
      injection Hfire as <-. lia.
    + rewrite (drawGame_Some st head rest Hs) in Hfire.
      injection Hfire as <-.
      destruct (tick_fields head st) as (_ & _ & -> & _).
      destruct (coord_eqb head (foodCoords st)) eqn:E;
        [destruct (eatOrShrink_eats head st E) as (_ & -> & _)
        |destruct (eatOrShrink_shrinks head st E) as (_ & -> & _)]; lia.
Qed.

(** C10: over any sequence of events of the page (images loading, key
    presses, slider changes, ticks) the score never goes down; [stopGame]
    leaves it as it is, and a slider change, which stops and restarts the
    game, keeps the score, the snake and the direction. *)
Theorem score_never_decreases (evs : list Event) (st st' : State) :
  run evs st = Some st' ->
  score st <= score st' /\
  (forall reason, score (stopGame reason st') = score st') /\
  (forall value,
     score (speedSlider_onchange value st') = score st' /\
     snake (speedSlider_onchange value st') = snake st' /\
     snakeDir (speedSlider_onchange value st') = snakeDir st').
Proof.
  intros Hrun. split; [|split].
  - revert st Hrun. induction evs as [|ev evs IH]; intros st Hrun;
      cbn [run] in Hrun.
    + injection Hrun as <-. lia.
    + destruct (fire ev st) as [st1|] eqn:Hf; [|discriminate].
      pose proof (fire_score ev st st1 Hf). pose proof (IH st1 Hrun). lia.
  - intros reason. apply stopGame_fields.
  - intros value. apply speedSlider_onchange_frame.
Qed.

Lemma score_never_decreases_witness :
  score (init half blank) <= score at_west_wall /\
  score (speedSlider_onchange 5 at_west_wall) = 2.
Proof.
  destruct (score_never_decreases play_to_west_wall (init half blank)
              at_west_wall) as (Hle & _ & Hslider).
  - vm_compute. reflexivity.
  - split; [exact Hle|]. destruct (Hslider 5) as (-> & _). reflexivity.
Defined.

(** The timer half of stopping holds: after [stopGame] no tick can fire. *)
Lemma stopGame_silences_timer
    (rnd : nat -> Q) (html : Message) (st : State) (reason : string)
    (h : positive) :
  reachable rnd html st ->
  game (stopGame reason st) = None /\
  fire (Interval h) (stopGame reason st) = None.
Proof.
  intros Hr. split; [reflexivity|].
  destruct (reachable_invariant _ _ _ Hr) as [_ Hok].
  cbn [fire]. rewrite (stopGame_no_timer reason st Hok). reflexivity.
Qed.

Lemma stopGame_then_left_key
    (rnd : nat -> Q) (html : Message) (st : State) (reason : string) :
  reachable rnd html st ->
  snakeDir st <> Some Dir.right ->
  snakeDir (stopGame reason st) = snakeDir st /\
  fire (KeyDown keys_left) (stopGame reason st)
  = Some (direction keys_left (stopGame reason st)) /\
  snakeDir (direction keys_left (stopGame reason st)) = Some Dir.left.
Proof.
  intros Hr Hd.
  destruct (reachable_invariant _ _ _ Hr) as [_ [Hl _]].
  destruct (stopGame_fields reason st) as (_ & Esd & _).
  split; [exact Esd|]. split.
  - cbn [fire]. rewrite dispatch_keydown_initial; [reflexivity|].
    rewrite stopGame_listeners. exact Hl.
  - unfold direction. cbn [existsb keys_left Z.eqb Pos.eqb orb].
    cbv zeta. rewrite Esd.
    destruct (snakeDir st) as [[| | |]|] eqn:E; try congruence;
      cbn; try rewrite E; reflexivity.
Qed.

(** C4 (the listener stays): [stopGame] passes [keyDownListener] to
    [removeEventListener], but that constant holds what [addEventListener]
    returned, [undefined], so no listener is removed.  In the play where the
    snake eats itself on the first tick the game is stopped and its timer is
    gone, yet the left arrow key still sets [snakeDir]. *)
Theorem stopGame_keeps_keydown_listener :
  keyDownListener = JsUndefined /\
  (forall reason st,
     listeners (page (stopGame reason st)) = listeners (page st)) /\
  reachable half blank started /\
  drawGame started = Some ate_itself /\
  game ate_itself = None /\
  intervals (page ate_itself) = [] /\
  listeners (page ate_itself) = [("keydown", direction_fn)] /\
  snakeDir ate_itself = None /\
  exists st',
    fire (KeyDown keys_left) ate_itself = Some st' /\
    snakeDir st' = Some Dir.left.
Proof.
  split; [reflexivity|]. split; [exact stopGame_listeners|].
  split; [exact started_reachable|].
  split; [vm_compute; reflexivity|]. repeat split.
  eexists. split; reflexivity.
Qed.

(** ** Further properties: frames of the handlers *)

Section Frames.

Lemma tryStartingGame_keeps (st : State) :
  gameFrameRateHz (tryStartingGame st) = gameFrameRateHz st /\
  draws (page (tryStartingGame st)) = draws (page st) /\
  groundImg_complete (page (tryStartingGame st)) = groundImg_complete (page st) /\
  foodImg_complete (page (tryStartingGame st)) = foodImg_complete (page st).
Proof.
  unfold tryStartingGame.
  destruct (foodImg_complete (page st) && groundImg_complete (page st)
            && match game st with None => true | Some _ => false end);
    repeat split.
Qed.

Lemma direction_keeps (code : Z) (st : State) :
  gameFrameRateHz (direction code st) = gameFrameRateHz st /\
  draws (page (direction code st)) = draws (page st) /\
  groundImg_complete (page (direction code st)) = groundImg_complete (page st) /\
  foodImg_complete (page (direction code st)) = foodImg_complete (page st).
Proof.
  unfold direction.
  destruct (existsb (Z.eqb code) _); [|repeat split].
  destruct (snakeDir st); cbv zeta;
    repeat match goal with
           | |- context [if ?b then _ else _] => destruct b
           end; repeat split.
Qed.

Lemma stopGame_keeps (reason : string) (st : State) :
  groundImg_complete (page (stopGame reason st)) = groundImg_complete (page st) /\
  foodImg_complete (page (stopGame reason st)) = foodImg_complete (page st) /\
  nextHandle (page (stopGame reason st)) = nextHandle (page st).
Proof.
  destruct (game st) eqn:E; unfold stopGame; cbn; rewrite ?E; repeat split.
Qed.

Lemma eatOrShrink_keeps (head : Coord) (st : State) :
  groundImg_complete (page (eatOrShrink head st)) = groundImg_complete (page st) /\
  foodImg_complete (page (eatOrShrink head st)) = foodImg_complete (page st).
Proof.
  unfold eatOrShrink. destruct (coord_eqb head (foodCoords st)); repeat split.
Qed.

(** The handlers run by a key press, whatever listeners are registered. *)
Lemma dispatch_keydown_ind (P : State -> Prop) (code : Z) (st : State) :
  (forall s, P s -> P (direction code s)) ->
  P st -> P (dispatch_keydown code st).
Proof.
  intros Hstep. unfold dispatch_keydown.
  generalize (listeners (page st)). intros ls. revert st.
  induction ls as [|l ls IH]; intros st H; cbn [fold_left]; [exact H|].
  apply IH. unfold run_listener.
  destruct (String.eqb (fst l) "keydown"); [|exact H].
  destruct (snd l). apply Hstep, H.
Qed.

End Frames.

(** ** Further properties: the timer *)

Section Timer.

Lemma tick_keeps (head : Coord) (st : State) :
  let st' := snakeStrikesSelf (moved head st) in
  gameFrameRateHz st' = gameFrameRateHz st /\
  groundImg_complete (page st') = groundImg_complete (page st) /\
  foodImg_complete (page st') = foodImg_complete (page st).
Proof.
  intros st'. subst st'.
  destruct (eatOrShrink_frame head st) as (_ & _ & Ehz & _).
  destruct (eatOrShrink_keeps head st) as (Eg & Ef).
  assert (Hmid : gameFrameRateHz (moved head st) = gameFrameRateHz st /\
                 groundImg_complete (page (moved head st))
                 = groundImg_complete (page st) /\
                 foodImg_complete (page (moved head st))
                 = foodImg_complete (page st)).
  { unfold moved, unshift, checkWalls.
    cbn [gameFrameRateHz page set_snake].
    destruct (outsideArena head); [|repeat split; assumption].
    destruct (stopGame_fields wallMessage (eatOrShrink head st))
      as (_ & _ & _ & _ & -> & _).
    destruct (stopGame_keeps wallMessage (eatOrShrink head st))
      as (-> & -> & _).
    repeat split; assumption. }
  rewrite snakeStrikesSelf_spec. destruct (selfHit (moved head st));
    [|exact Hmid].
  destruct (stopGame_fields selfMessage (moved head st))
    as (_ & _ & _ & _ & -> & _).
  destruct (stopGame_keeps selfMessage (moved head st)) as (-> & -> & _).
  exact Hmid.
Qed.

Lemma stopGame_timer_ok (reason : string) (st : State) :
  page_ok st -> timer_ok (stopGame reason st).
Proof.
  intros Hok. unfold timer_ok. rewrite stopGame_game.
  apply stopGame_no_timer, Hok.
Qed.

Lemma tryStartingGame_timer_ok (st : State) :
  timer_ok st -> timer_ok (tryStartingGame st).
Proof.
  intros Ht. unfold tryStartingGame.
  destruct (foodImg_complete (page st)) eqn:Ef;
    destruct (groundImg_complete (page st)) eqn:Eg;
    destruct (game st) as [h|] eqn:Egame; cbn [andb]; try exact Ht.
  unfold timer_ok in *. rewrite Egame in Ht.
  cbn. rewrite Ht, Ef, Eg. repeat split.
Qed.

Lemma direction_timer_ok (code : Z) (st : State) :
  timer_ok st -> timer_ok (direction code st).
Proof.
  unfold timer_ok.
  destruct (direction_frame code st) as (_ & _ & _ & -> & -> & _).
  destruct (direction_keeps code st) as (-> & _ & -> & ->).
  exact (fun H => H).
Qed.

Lemma tick_timer_ok (head : Coord) (st : State) :
  page_ok st -> timer_ok st -> timer_ok (snakeStrikesSelf (moved head st)).
Proof.
  intros Hok Ht.
  pose proof (moved_page_ok head st Hok) as [_ Hok'].
  pose proof (tick_stop_state head st) as Hstop. cbv zeta in Hstop.
  destruct (tick_keeps head st) as (Ehz & Eg & Ef).
  unfold timer_ok. rewrite Ehz, Eg, Ef.
  destruct (selfHit (snakeStrikesSelf (moved head st)));
    [|destruct (outsideArena head)].
  - destruct Hstop as [Hg _]. rewrite Hg in *. exact Hok'.
  - destruct Hstop as [Hg _]. rewrite Hg in *. exact Hok'.
  - destruct Hstop as (-> & _ & ->). exact Ht.
Qed.

Lemma fire_timer_ok (ev : Event) (st st' : State) :
  invariant st -> timer_ok st -> fire ev st = Some st' -> timer_ok st'.
Proof.
  intros [Hsn Hok] Ht Hfire.
  destruct ev as [img|code|v|h]; cbn [fire] in Hfire.
  - injection Hfire as <-. unfold imageLoaded.
    apply tryStartingGame_timer_ok.
    unfold timer_ok in *. cbn [game set_page gameFrameRateHz page].
    destruct (game st) as [g|]; destruct img; cbn; tauto.
  - injection Hfire as <-.
    rewrite dispatch_keydown_initial by apply Hok.
    apply direction_timer_ok, Ht.
  - injection Hfire as <-. unfold speedSlider_onchange.
    apply tryStartingGame_timer_ok, stopGame_timer_ok. exact Hok.
  - destruct (existsb _ _); [|discriminate].
    destruct (snake st) as [|head rest] eqn:Hs; [congruence|].
    rewrite (drawGame_Some st head rest Hs) in Hfire. injection Hfire as <-.
    apply tick_timer_ok; assumption.
Qed.

Lemma reachable_timer_ok (rnd : nat -> Q) (html : Message) (st : State) :
  reachable rnd html st -> timer_ok st.
Proof.
  induction 1 as [|st ev st' Hr IH Hfire]; [reflexivity|].
  exact (fire_timer_ok ev st st' (reachable_invariant _ _ _ Hr) IH Hfire).
Qed.

(** X1: at any time there is at most one timer.  While [game] holds a handle
    it is the handle of the only active timer, whose delay is ten times the
    current [gameFrameRateHz], and both images are complete; while [game] is
    unset no timer is active.  A tick can fire exactly while [game] holds a
    handle, and only for that handle. *)
Theorem one_timer_at_most
    (rnd : nat -> Q) (html : Message) (st : State) :
  reachable rnd html st ->
  (List.length (intervals (page st)) <= 1)%nat /\
  match game st with
  | Some h =>
      intervals (page st) = [(h, gameFrameRateHz st * 10)] /\
      groundImg_complete (page st) = true /\
      foodImg_complete (page st) = true
  | None => intervals (page st) = []
  end /\
  (forall h, fire (Interval h) st <> None <-> game st = Some h).
Proof.
  intros Hr. pose proof (reachable_timer_ok _ _ _ Hr) as Ht.
  unfold timer_ok in Ht. split; [|split; [exact Ht|]].
  - destruct (game st); [destruct Ht as (-> & _)|rewrite Ht]; cbn; lia.
  - intros h. cbn [fire]. destruct (game st) as [g|].
    + destruct Ht as (-> & _). cbn [existsb fst orb].
      destruct (Pos.eqb_spec g h) as [->|Hne]; cbn.
      * split; [reflexivity|]. intros _. destruct (drawGame st); discriminate.
      * split; [congruence|]. intros [= E]. congruence.
    + rewrite Ht. cbn. split; [congruence|discriminate].
Qed.

Lemma one_timer_at_most_witness :
  intervals (page started) = [(1%positive, gameFrameRateHz started * 10)].
Proof.
  destruct (one_timer_at_most half blank started) as (_ & (H & _) & _).
  - apply (run_reachable half blank [Onload groundImg; Onload foodImg]
             (init half blank)); [apply reach_init|].
    vm_compute. reflexivity.
  - exact H.
Defined.

End Timer.

(** ** Further properties: starting and restarting *)

Section Starting.

(** X2: when an image finishes loading, the game starts exactly if no game
    is running and the other image is complete too, whichever image came
    first: a fresh timer with delay ten times [gameFrameRateHz] is set, its
    handle is kept in [game], and the header invites to press a key.
    Otherwise nothing changes but the image's own flag. *)
Theorem imageLoaded_starts_on_second_image (img : Image) (st : State) :
  exists st',
    fire (Onload img) st = Some st' /\
    complete img (page st') = true /\
    complete (other img) (page st') = complete (other img) (page st) /\
    (game st = None -> complete (other img) (page st) = true ->
     game st' = Some (nextHandle (page st)) /\
     intervals (page st')
     = intervals (page st)
       ++ [(nextHandle (page st), gameFrameRateHz st * 10)] /\
     messageHeader (page st')
     = mkMessage "Press an arrow key to start moving!" "green") /\
    (game st <> None \/ complete (other img) (page st) = false ->
     game st' = game st /\
     intervals (page st') = intervals (page st) /\
     messageHeader (page st') = messageHeader (page st)) /\
    snake st' = snake st /\ snakeDir st' = snakeDir st /\
    score st' = score st /\ foodCoords st' = foodCoords st.
Proof.
  eexists. split; [reflexivity|].
  unfold imageLoaded, tryStartingGame.
  destruct img; cbn [complete other set_complete page set_page
                     foodImg_complete groundImg_complete game];
    destruct (foodImg_complete (page st)) eqn:Ef;
    destruct (groundImg_complete (page st)) eqn:Eg;
    destruct (game st) as [h|] eqn:Egame; cbn;
    (split; [reflexivity|]); (split; [reflexivity|]);
    (split; [intros Hg Ho; try congruence; repeat split|]);
    (split; [intros [Hg|Ho]; try congruence; repeat split; assumption
            |repeat split]).
Qed.

(** X3: a change of the speed slider sets [gameFrameRateHz] to 25 minus the
    slider value and leaves the page with a fresh game whenever both images
    are complete, also when the game was over: one timer, with the new
    delay.  While an image is missing it leaves no timer, and the header
    shows "unknown" in red. *)
Theorem speedSlider_onchange_restarts
    (rnd : nat -> Q) (html : Message) (st : State) (value : Z) :
  reachable rnd html st ->
  let st' := speedSlider_onchange value st in
  gameFrameRateHz st' = 25 - value /\
  (groundImg_complete (page st) && foodImg_complete (page st) = true ->
   game st' = Some (nextHandle (page st)) /\
   intervals (page st') = [(nextHandle (page st), (25 - value) * 10)] /\
   messageHeader (page st')
   = mkMessage "Press an arrow key to start moving!" "green") /\
  (groundImg_complete (page st) && foodImg_complete (page st) = false ->
   game st' = None /\
   intervals (page st') = [] /\
   messageHeader (page st') = mkMessage "unknown" "red").
Proof.
  intros Hr st'. subst st'.
  destruct (reachable_invariant _ _ _ Hr) as [_ Hok].
  unfold speedSlider_onchange.
  set (st1 := set_gameFrameRateHz (25 - value) st).
  assert (Hok1 : page_ok st1) by exact Hok.
  pose proof (stopGame_no_timer "unknown" st1 Hok1) as Hnone.
  destruct (stopGame_keeps "unknown" st1) as (Eg & Ef & En).
  destruct (stopGame_fields "unknown" st1) as (_ & _ & _ & _ & Ehz & _).
  destruct (tryStartingGame_keeps (stopGame "unknown" st1)) as (-> & _).
  rewrite Ehz. split; [reflexivity|].
  unfold tryStartingGame. rewrite Eg, Ef, stopGame_game.
  change (groundImg_complete (page st1)) with (groundImg_complete (page st)).
  change (foodImg_complete (page st1)) with (foodImg_complete (page st)).
  destruct (groundImg_complete (page st));
    destruct (foodImg_complete (page st)); cbn [andb];
    (split; [intros H|intros H]); try discriminate;
    try (split; [reflexivity|split; [exact Hnone|reflexivity]]).
  unfold setInterval. rewrite Hnone, En, Ehz. repeat split.
Qed.

Lemma speedSlider_onchange_restarts_witness :
  game (speedSlider_onchange 5 ate_itself) = Some 2%positive /\
  intervals (page (speedSlider_onchange 5 ate_itself)) = [(2%positive, 200)].
Proof.
  destruct (speedSlider_onchange_restarts half blank ate_itself 5)
    as (_ & Hstart & _).
  - apply (run_reachable half blank
             [Onload groundImg; Onload foodImg; Interval 1]
             (init half blank)); [apply reach_init|].
    vm_compute. reflexivity.
  - destruct (Hstart eq_refl) as (Hg & Hi & _).
    split; [exact Hg|exact Hi].
Defined.

End Starting.

(** ** Further properties: the arrow keys *)

Section Keys.

Lemma requested_key_of (code : Z) (r : Dir.t) :
  requested code = Some r <-> code = key_of r.
Proof.
  unfold requested.
  destruct (Z.eqb_spec code keys_left) as [->|H1];
    [destruct r; cbv [key_of keys_left keys_up keys_right keys_down];
     split; (congruence || discriminate)|].
  destruct (Z.eqb_spec code keys_up) as [->|H2];
    [destruct r; cbv [key_of keys_left keys_up keys_right keys_down];
     split; (congruence || discriminate)|].
  destruct (Z.eqb_spec code keys_right) as [->|H3];
    [destruct r; cbv [key_of keys_left keys_up keys_right keys_down];
     split; (congruence || discriminate)|].
  destruct (Z.eqb_spec code keys_down) as [->|H4];
    [destruct r; cbv [key_of keys_left keys_up keys_right keys_down];
     split; (congruence || discriminate)|].
  split; [discriminate|]. intros ->. destruct r; cbn in *; congruence.
Qed.

Lemma direction_accepts (st : State) (r : Dir.t) :
  snakeDir st <> Some (opposite r) ->
  snakeDir (direction (key_of r) st) = Some r.
Proof.
  intros Hd. unfold direction.
  destruct (snakeDir st) as [d|] eqn:E.
  - destruct r, d; cbn in Hd; try congruence;
      repeat (progress (rewrite ?E; cbn)); reflexivity.
  - destruct r; repeat (progress (rewrite ?E; cbn)); reflexivity.
Qed.

(** X4: an arrow key that does not ask for the reverse of the current
    direction sets [snakeDir] to the direction of the key; so does any arrow
    key while no direction is set. *)
Theorem direction_accepts_other_keys (st : State) (code : Z) (r : Dir.t) :
  requested code = Some r ->
  snakeDir st <> Some (opposite r) ->
  snakeDir (direction code st) = Some r.
Proof.
  intros Hreq Hd. apply requested_key_of in Hreq. subst code.
  apply direction_accepts, Hd.
Qed.

Lemma direction_accepts_other_keys_witness :
  snakeDir (direction keys_up (set_snakeDir (Some Dir.left) started))
  = Some Dir.up.
Proof.
  apply (direction_accepts_other_keys
           (set_snakeDir (Some Dir.left) started) keys_up Dir.up).
  - reflexivity.
  - discriminate.
Defined.

(** X5: a key press touches nothing but [snakeDir] and the message header,
    whatever listeners are registered; a key that is no arrow key leaves the
    whole state as it is. *)
Theorem keydown_frame (code : Z) (st : State) :
  let st' := dispatch_keydown code st in
  snake st' = snake st /\ score st' = score st /\
  foodCoords st' = foodCoords st /\ game st' = game st /\
  gameFrameRateHz st' = gameFrameRateHz st /\
  intervals (page st') = intervals (page st) /\
  listeners (page st') = listeners (page st) /\
  draws (page st') = draws (page st) /\
  (requested code = None -> st' = st).
Proof.
  cbv zeta.
  assert (F : forall (A : Type) (f : State -> A),
             (forall s, f (direction code s) = f s) ->
             f (dispatch_keydown code st) = f st).
  { intros A f Hf. apply (dispatch_keydown_ind (fun s => f s = f st));
      [intros s <-; apply Hf|reflexivity]. }
  split; [apply (F _ snake); intros; apply direction_frame|].
  split; [apply (F _ score); intros; apply direction_frame|].
  split; [apply (F _ foodCoords); intros; apply direction_frame|].
  split; [apply (F _ game); intros; apply direction_frame|].
  split; [apply (F _ gameFrameRateHz); intros; apply direction_keeps|].
  split; [apply (F _ (fun s => intervals (page s))); intros;
          apply direction_frame|].
  split; [apply (F _ (fun s => listeners (page s))); intros;
          apply direction_frame|].
  split; [apply (F _ (fun s => draws (page s))); intros;
          apply direction_keeps|].
  intros Hreq. apply (dispatch_keydown_ind (fun s => s = st));
    [|reflexivity].
  intros s ->. unfold direction. unfold requested in Hreq. cbn [existsb].
  destruct (code =? keys_left); [discriminate|].
  destruct (code =? keys_up); [discriminate|].
  destruct (code =? keys_right); [discriminate|].
  destruct (code =? keys_down); [discriminate|]. reflexivity.
Qed.

(** X6: two key presses between two ticks reverse the snake.  From any
    direction, the key of a perpendicular direction followed by the key of
    the opposite direction leaves [snakeDir] at the opposite direction: the
    listener compares with [snakeDir], not with the last step taken. *)
Theorem two_keys_reverse (st : State) (d p : Dir.t) :
  snakeDir st = Some d ->
  perpendicular p d ->
  snakeDir (direction (key_of (opposite d)) (direction (key_of p) st))
  = Some (opposite d).
Proof.
  intros Hd [Hne Hno].
  assert (Hp : snakeDir (direction (key_of p) st) = Some p).
  { apply direction_accepts. rewrite Hd. intros [= E].
    apply Hno. rewrite E. destruct p; reflexivity. }
  apply direction_accepts. rewrite Hp. intros [= E].
  apply Hne. destruct d, p; cbn in E; congruence.
Qed.

Lemma two_keys_reverse_witness :
  snakeDir (direction keys_right
              (direction keys_up (set_snakeDir (Some Dir.left) started)))
  = Some Dir.right.
Proof.
  apply (two_keys_reverse (set_snakeDir (Some Dir.left) started)
           Dir.left Dir.up).
  - reflexivity.
  - split; discriminate.
Defined.

Lemma direction_stays_set (code : Z) (st : State) :
  snakeDir st <> None ->
  snakeDir (direction code st) <> None /\
  messageHeader (page (direction code st)) = messageHeader (page st).
Proof.
  intros Hd. unfold direction.
  destruct (existsb (Z.eqb code) _); [|split; [exact Hd|reflexivity]].
  destruct (snakeDir st) as [d|] eqn:E; [|congruence]. cbv zeta.
  repeat match goal with
         | |- context [if ?b then _ else _] => destruct b
         end; cbn; rewrite ?E; split; (discriminate || reflexivity).
Qed.

(** X7: once a direction is chosen it is never unset again, by any event of
    the page; and from then on a key press leaves the message header alone
    (the "Yum yum carrots!" text is only written while no direction is
    set). *)
Theorem snakeDir_stays_set (ev : Event) (st st' : State) :
  snakeDir st <> None ->
  fire ev st = Some st' ->
  snakeDir st' <> None /\
  (forall code, ev = KeyDown code ->
                messageHeader (page st') = messageHeader (page st)).
Proof.
  intros Hd Hfire. destruct ev as [img|code|v|h]; cbn [fire] in Hfire.
  - injection Hfire as <-. split; [|discriminate]. unfold imageLoaded.
    destruct (tryStartingGame_frame
                (set_page (set_complete img (page st)) st)) as (_ & -> & _).
    exact Hd.
  - injection Hfire as <-.
    assert (H : snakeDir (dispatch_keydown code st) <> None /\
                messageHeader (page (dispatch_keydown code st))
                = messageHeader (page st)).
    { apply (dispatch_keydown_ind
               (fun s => snakeDir s <> None /\
                         messageHeader (page s) = messageHeader (page st)));
        [|split; [exact Hd|reflexivity]].
      intros s [Hs Hm]. destruct (direction_stays_set code s Hs) as [H1 H2].
      split; [exact H1|congruence]. }
    split; [apply H|]. intros _ _. apply H.
  - injection Hfire as <-. split; [|discriminate].
    destruct (speedSlider_onchange_frame v st) as (_ & _ & ->). exact Hd.
  - split; [|discriminate].
    destruct (existsb _ _); [|discriminate].
    destruct (snake st) as [|head rest] eqn:Hs.
    + unfold drawGame in Hfire. rewrite Hs in Hfire.
      injection Hfire as <-. exact Hd.
    + rewrite (drawGame_Some st head rest Hs) in Hfire.
      injection Hfire as <-.
      destruct (tick_fields head st) as (_ & -> & _). exact Hd.
Qed.

Lemma snakeDir_stays_set_witness :
  snakeDir (speedSlider_onchange 5 at_west_wall) <> None.
Proof.
  apply (snakeDir_stays_set (SliderChange 5) at_west_wall).
  - discriminate.
  - reflexivity.
Defined.

End Keys.

Lemma imageLoaded_starts_on_second_image_witness :
  exists st',
    fire (Onload foodImg)
         (set_page (set_complete groundImg (page (init half blank)))
                   (init half blank)) = Some st' /\
    game st' = Some 1%positive.
Proof.
  destruct (imageLoaded_starts_on_second_image foodImg
              (set_page (set_complete groundImg (page (init half blank)))
                        (init half blank)))
    as (st' & Hfire & _ & _ & Hstart & _).
  exists st'. split; [exact Hfire|].
  destruct Hstart as (Hg & _); [reflexivity|reflexivity|exact Hg].
Defined.

Lemma keydown_frame_witness :
  dispatch_keydown 65 started = started.
Proof.
  destruct (keydown_frame 65 started) as (_ & _ & _ & _ & _ & _ & _ & _ & H).
  apply H. reflexivity.
Defined.

(** ** Further properties: single ticks *)

Section Ticks.

Lemma coord_eqb_refl (c : Coord) : coord_eqb c c = true.
Proof. apply coord_eqb_true. split; reflexivity. Qed.

Lemma tick_selfHit (head : Coord) (st : State) :
  selfHit (snakeStrikesSelf (moved head st))
  = existsb (coord_eqb (moveHead (snakeDir st) head))
            (snake (eatOrShrink head st)).
Proof.
  unfold selfHit. destruct (tick_fields head st) as (-> & _). reflexivity.
Qed.

(** X8: a step onto the neck ends the game.  When the snake has at least
    three segments and the step of the tick leads to the place of its second
    segment, the tick stops the game with the self message, whether or not
    the head was on the food. *)
Theorem step_onto_neck_stops
    (st : State) (head neck third : Coord) (rest : list Coord) :
  snake st = head :: neck :: third :: rest ->
  moveHead (snakeDir st) head = neck ->
  exists st',
    drawGame st = Some st' /\
    game st' = None /\
    messageHeader (page st') = mkMessage selfMessage "red" /\
    nth_error (snake st') 0 = Some neck /\
    nth_error (snake st') 2 = Some neck.
Proof.
  intros Hs Hstep. exists (snakeStrikesSelf (moved head st)).
  split; [exact (drawGame_Some st head _ Hs)|].
  pose proof (tick_stop_state head st) as Hstop. cbv zeta in Hstop.
  pose proof (tick_selfHit head st) as Hhit.
  destruct (tick_fields head st) as (Esn & _).
  assert (Hbody : exists tail, snake (eatOrShrink head st)
                               = head :: neck :: tail).
  { destruct (coord_eqb head (foodCoords st)) eqn:E.
    - destruct (eatOrShrink_eats head st E) as (-> & _). rewrite Hs. eauto.
    - destruct (eatOrShrink_shrinks head st E) as (-> & _). rewrite Hs.
      cbn [removelast]. eauto. }
  destruct Hbody as (tail & Hbody).
  rewrite Hbody, Hstep in Hhit. cbn [existsb] in Hhit.
  rewrite coord_eqb_refl, orb_true_r in Hhit. cbn [orb] in Hhit.
  rewrite Hhit in Hstop. destruct Hstop as [Hg Hm].
  rewrite Esn, Hbody, Hstep. repeat split; assumption.
Qed.

Lemma step_onto_neck_stops_witness :
  exists st',
    drawGame at_west_wall = Some st' /\
    messageHeader (page st') = mkMessage selfMessage "red".
Proof.
  destruct (step_onto_neck_stops at_west_wall
              {| x := 0; y := 320 |} {| x := 32; y := 320 |}
              {| x := 64; y := 320 |} [])
    as (st' & Hrun & _ & Hm & _).
  - reflexivity.
  - reflexivity.
  - exists st'. split; [exact Hrun|exact Hm].
Defined.

(** X9: a snake of two segments may turn back.  Its tail is dropped before
    the self check, so when the head is not on the food and inside the
    arena, a step onto the place of the tail just swaps the two segments and
    the game goes on. *)
Theorem two_segments_turn_back (st : State) (head tail : Coord) :
  snake st = [head; tail] ->
  moveHead (snakeDir st) head = tail ->
  coord_eqb tail head = false ->
  coord_eqb head (foodCoords st) = false ->
  outsideArena head = false ->
  exists st',
    drawGame st = Some st' /\
    snake st' = [tail; head] /\
    game st' = game st /\
    messageHeader (page st') = messageHeader (page st) /\
    score st' = score st.
Proof.
  intros Hs Hstep Hne Hfood Hin. exists (snakeStrikesSelf (moved head st)).
  split; [exact (drawGame_Some st head _ Hs)|].
  pose proof (tick_stop_state head st) as Hstop. cbv zeta in Hstop.
  pose proof (tick_selfHit head st) as Hhit.
  destruct (tick_fields head st) as (Esn & _ & Esc & _).
  destruct (eatOrShrink_shrinks head st Hfood) as (Eb & Esc' & _).
  rewrite Eb, Hs, Hstep in Hhit. cbn [removelast existsb] in Hhit.
  rewrite Hne in Hhit. cbn [orb] in Hhit.
  rewrite Hhit, Hin in Hstop. destruct Hstop as (Hg & Hm & _).
  rewrite Esn, Esc, Eb, Hs, Hstep, Esc'. repeat split; assumption.
Qed.

Lemma two_segments_turn_back_witness :
  let st := set_snakeDir (Some Dir.left)
              (set_snake [ {| x := 64; y := 320 |}; {| x := 32; y := 320 |} ]
                 started) in
  exists st',
    drawGame st = Some st' /\
    snake st' = [ {| x := 32; y := 320 |}; {| x := 64; y := 320 |} ].
Proof.
  destruct (two_segments_turn_back
              (set_snakeDir (Some Dir.left)
                 (set_snake [ {| x := 64; y := 320 |};
                              {| x := 32; y := 320 |} ] started))
              {| x := 64; y := 320 |} {| x := 32; y := 320 |})
    as (st' & Hrun & Hsn & _); try reflexivity.
  exists st'. split; [exact Hrun|exact Hsn].
Defined.

(** X10: while no direction is chosen, a tick on the one-segment snake
    changes nothing at all, as long as the head is inside the arena and not
    on the food. *)
Theorem idle_tick_changes_nothing (st : State) (head : Coord) :
  snake st = [head] ->
  snakeDir st = None ->
  coord_eqb head (foodCoords st) = false ->
  outsideArena head = false ->
  drawGame st = Some st.
Proof.
  intros Hs Hd Hfood Hin. rewrite (drawGame_Some st head [] Hs).
  f_equal. rewrite snakeStrikesSelf_spec.
  unfold selfHit, moved, unshift, checkWalls, eatOrShrink.
  rewrite Hin, Hfood, Hd, Hs, moveHead_unset. cbn.
  destruct st; cbn in *; subst; reflexivity.
Qed.

Lemma idle_tick_changes_nothing_witness :
  let st := set_foodCoords {| x := 32; y := 96 |} started in
  drawGame st = Some st.
Proof.
  apply (idle_tick_changes_nothing
           (set_foodCoords {| x := 32; y := 96 |} started)
           {| x := 288; y := 320 |}); reflexivity.
Defined.

(** X11: while no direction is chosen, a tick with the head on the food ends
    the game.  The score goes up, the unmoved head is put in front of the
    snake that was not shortened, and the self check finds the head on the
    old head. *)
Theorem idle_tick_on_food_stops
    (st : State) (head : Coord) (rest : list Coord) :
  snake st = head :: rest ->
  snakeDir st = None ->
  coord_eqb head (foodCoords st) = true ->
  exists st',
    drawGame st = Some st' /\
    snake st' = head :: head :: rest /\
    score st' = score st + 1 /\
    game st' = None /\
    messageHeader (page st') = mkMessage selfMessage "red".
Proof.
  intros Hs Hd Hfood. exists (snakeStrikesSelf (moved head st)).
  split; [exact (drawGame_Some st head _ Hs)|].
  pose proof (tick_stop_state head st) as Hstop. cbv zeta in Hstop.
  pose proof (tick_selfHit head st) as Hhit.
  destruct (tick_fields head st) as (Esn & _ & Esc & _).
  destruct (eatOrShrink_eats head st Hfood) as (Eb & Esc' & _).
  rewrite Eb, Hs, Hd, moveHead_unset in Hhit. cbn [existsb] in Hhit.
  rewrite coord_eqb_refl in Hhit. cbn [orb] in Hhit.
  rewrite Hhit in Hstop. destruct Hstop as [Hg Hm].
  rewrite Esn, Esc, Eb, Hs, Hd, moveHead_unset, Esc'.
  repeat split; assumption.
Qed.

Lemma idle_tick_on_food_stops_witness :
  exists st', drawGame started = Some st' /\ game st' = None.
Proof.
  destruct (idle_tick_on_food_stops started {| x := 288; y := 320 |} [])
    as (st' & Hrun & _ & _ & Hg & _); try reflexivity.
  exists st'. split; [exact Hrun|exact Hg].
Defined.

(** X12: the snake dies one tick after it leaves the arena.  A tick whose
    step takes the head from inside the arena to outside leaves the game
    running (unless the snake hits itself), with the head outside; the next
    tick stops the game. *)
Theorem wall_death_comes_one_tick_late
    (st : State) (head : Coord) (rest : list Coord) :
  snake st = head :: rest ->
  outsideArena head = false ->
  outsideArena (moveHead (snakeDir st) head) = true ->
  exists st' st'',
    drawGame st = Some st' /\
    nth_error (snake st') 0 = Some (moveHead (snakeDir st) head) /\
    (selfHit st' = false ->
     game st' = game st /\
     messageHeader (page st') = messageHeader (page st)) /\
    drawGame st' = Some st'' /\
    game st'' = None /\
    color (messageHeader (page st'')) = "red".
Proof.
  intros Hs Hin Hout.
  set (st' := snakeStrikesSelf (moved head st)).
  destruct (tick_fields head st) as (Esn & _).
  fold st' in Esn.
  exists st', (snakeStrikesSelf (moved (moveHead (snakeDir st) head) st')).
  split; [exact (drawGame_Some st head _ Hs)|].
  split; [rewrite Esn; reflexivity|]. split.
  - intros Hself. pose proof (tick_stop_state head st) as Hstop.
    cbv zeta in Hstop. fold st' in Hstop. rewrite Hself, Hin in Hstop.
    destruct Hstop as (Hg & Hm & _). split; assumption.
  - split; [exact (drawGame_Some st' _ _ Esn)|].
    pose proof (tick_stop_state (moveHead (snakeDir st) head) st') as Hstop.
    cbv zeta in Hstop. rewrite Hout in Hstop.
    destruct (selfHit _); destruct Hstop as [Hg Hm]; rewrite Hm;
      split; (exact Hg || reflexivity).
Qed.

Lemma wall_death_comes_one_tick_late_witness :
  let st := set_snakeDir (Some Dir.left)
              (set_snake [ {| x := 32; y := 320 |} ] started) in
  exists st' st'',
    drawGame st = Some st' /\ game st' = Some 1%positive /\
    drawGame st' = Some st'' /\ game st'' = None.
Proof.
  destruct (wall_death_comes_one_tick_late
              (set_snakeDir (Some Dir.left)
                 (set_snake [ {| x := 32; y := 320 |} ] started))
              {| x := 32; y := 320 |} [])
    as (st' & st'' & H1 & _ & Hrun & H2 & Hg & _); try reflexivity.
  exists st', st''. split; [exact H1|].
  split; [|split; [exact H2|exact Hg]].
  injection H1 as <-. reflexivity.
Defined.

(** X13: the score changes only in a tick whose head is on the food, and
    then by exactly one; every other event leaves it as it is. *)
Theorem score_changes_only_by_eating (ev : Event) (st st' : State) :
  fire ev st = Some st' ->
  score st' = score st \/
  (score st' = score st + 1 /\
   exists h head,
     ev = Interval h /\ nth_error (snake st) 0 = Some head /\
     x head = x (foodCoords st) /\ y head = y (foodCoords st)).
Proof.
  destruct ev as [img|code|v|h]; cbn [fire]; intros Hfire.
  - left. injection Hfire as <-. unfold imageLoaded.
    destruct (tryStartingGame_frame
                (set_page (set_complete img (page st)) st)) as (_ & _ & -> & _).
    reflexivity.
  - left. injection Hfire as <-. apply dispatch_keydown_score.
  - left. injection Hfire as <-. apply speedSlider_onchange_frame.
  - destruct (existsb _ _); [|discriminate].
    destruct (snake st) as [|head rest] eqn:Hs.
    + unfold drawGame in Hfire. rewrite Hs in Hfire.
      injection Hfire as <-. left. reflexivity.
    + rewrite (drawGame_Some st head rest Hs) in Hfire.
      injection Hfire as <-.
      destruct (tick_fields head st) as (_ & _ & -> & _).
      destruct (coord_eqb head (foodCoords st)) eqn:E.
      * right. destruct (eatOrShrink_eats head st E) as (_ & -> & _).
        split; [reflexivity|]. exists h, head.
        apply coord_eqb_true in E. repeat split; tauto.
      * left. apply (eatOrShrink_shrinks head st E).
Qed.

Lemma score_changes_only_by_eating_witness :
  exists st', fire (Interval 1) started = Some st' /\
              score st' = score started + 1.
Proof.
  eexists. split; [vm_compute; reflexivity|].
  destruct (score_changes_only_by_eating (Interval 1) started _
              ltac:(vm_compute; reflexivity)) as [H|[H _]].
  - vm_compute in H. discriminate.
  - exact H.
Defined.

End Ticks.

(** ** Further properties: the shape of the snake *)

Section Shape.

Lemma removelast_length (l : list Coord) :
  l <> [] -> S (List.length (removelast l)) = List.length l.
Proof.
  intros Hne. destruct l as [|a l]; [congruence|].
  pose proof (app_removelast_last a Hne) as Hsplit.
  apply (f_equal (@List.length Coord)) in Hsplit.
  rewrite length_app in Hsplit. cbn [List.length] in *. lia.
Qed.

Lemma Forall_removelast (P : Coord -> Prop) (l : list Coord) :
  Forall P l -> Forall P (removelast l).
Proof.
  induction 1 as [|a l Ha Hl IH]; [constructor|].
  cbn [removelast]. destruct l; [constructor|].
  constructor; assumption.
Qed.

Lemma connected_removelast (l : list Coord) :
  connected l -> connected (removelast l).
Proof.
  induction l as [|a [|b l] IH]; intros H; try exact I.
  destruct H as [Hab Hrest]. specialize (IH Hrest).
  change (removelast (a :: b :: l)) with (a :: removelast (b :: l)).
  destruct l as [|c l]; [exact I|].
  change (removelast (b :: c :: l)) with (b :: removelast (c :: l)) in *.
  split; assumption.
Qed.

Lemma moveHead_on_grid (d : option Dir.t) (c : Coord) :
  on_grid c -> on_grid (moveHead d c).
Proof.
  intros [Hx Hy]. unfold on_grid, moveHead.
  destruct d as [[| | |]|]; cbn [dir_is Dir.eqb x y]; split;
    try assumption;
    (apply Z.divide_sub_r || apply Z.divide_add_r);
    (assumption || apply Z.divide_refl).
Qed.

Lemma generateFoodCoords_on_grid (p : Page) :
  on_grid (fst (generateFoodCoords p)).
Proof. split; cbn; apply Z.divide_factor_r. Qed.

Lemma init_shape (rnd : nat -> Q) (html : Message) : shape_ok (init rnd html).
Proof.
  split; [split; reflexivity|]. split; [|split; [|exact I]].
  - constructor; [|constructor]. split; cbn.
    + exists 9. reflexivity.
    + exists 10. reflexivity.
  - apply (generateFoodCoords_on_grid
             (mkPage html [] 1%positive [] false false rnd 0)).
Qed.

Lemma tick_shape (head : Coord) (rest : list Coord) (st : State) :
  snake st = head :: rest ->
  shape_ok st -> shape_ok (snakeStrikesSelf (moved head st)).
Proof.
  intros Hs ((Hlen & Hdr) & Hgrid & Hfood & Hconn).
  destruct (tick_fields head st) as (Esn & _ & Esc & Efo & Edr & _).
  unfold shape_ok, counters_ok. rewrite Esn, Esc, Efo, Edr.
  assert (Hhead : on_grid head) by (rewrite Hs in Hgrid; inversion Hgrid; assumption).
  destruct (coord_eqb head (foodCoords st)) eqn:E.
  - destruct (eatOrShrink_eats head st E) as (-> & -> & -> & ->).
    split; [split; [cbn [List.length]|]; lia|].
    split; [constructor; [apply moveHead_on_grid, Hhead|exact Hgrid]|].
    split; [apply generateFoodCoords_on_grid|].
    rewrite Hs in *. split; [eexists; reflexivity|exact Hconn].
  - destruct (eatOrShrink_shrinks head st E) as (-> & -> & -> & ->).
    assert (Hne : snake st <> []) by (rewrite Hs; discriminate).
    pose proof (removelast_length (snake st) Hne) as Hl.
    split; [split; [cbn [List.length]|]; lia|].
    split; [constructor; [apply moveHead_on_grid, Hhead
                         |apply Forall_removelast, Hgrid]|].
    split; [exact Hfood|].
    pose proof (connected_removelast _ Hconn) as Hc.
    rewrite Hs in *. destruct rest as [|b rest]; [exact I|].
    change (removelast (head :: b :: rest))
      with (head :: removelast (b :: rest)) in *.
    split; [eexists; reflexivity|exact Hc].
Qed.

Lemma fire_shape (ev : Event) (st st' : State) :
  invariant st -> shape_ok st -> fire ev st = Some st' -> shape_ok st'.
Proof.
  intros [Hsn Hok] Hshape Hfire.
  assert (Hsame : snake st' = snake st /\ score st' = score st /\
                  foodCoords st' = foodCoords st /\
                  draws (page st') = draws (page st) -> shape_ok st').
  { intros (E1 & E2 & E3 & E4). unfold shape_ok, counters_ok.
    rewrite E1, E2, E3, E4. exact Hshape. }
  destruct ev as [img|code|v|h]; cbn [fire] in Hfire.
  - injection Hfire as <-. apply Hsame. unfold imageLoaded.
    destruct (tryStartingGame_frame
                (set_page (set_complete img (page st)) st))
      as (-> & _ & -> & -> & _).
    destruct (tryStartingGame_keeps
                (set_page (set_complete img (page st)) st)) as (_ & -> & _).
    destruct img; repeat split.
  - injection Hfire as <-. apply Hsame.
    rewrite dispatch_keydown_initial by apply Hok.
    destruct (direction_frame code st) as (-> & -> & -> & _).
    destruct (direction_keeps code st) as (_ & -> & _). repeat split.
  - injection Hfire as <-. apply Hsame. unfold speedSlider_onchange.
    set (st1 := set_gameFrameRateHz (25 - v) st).
    destruct (tryStartingGame_frame (stopGame "unknown" st1))
      as (-> & _ & -> & -> & _).
    destruct (tryStartingGame_keeps (stopGame "unknown" st1))
      as (_ & -> & _).
    destruct (stopGame_fields "unknown" st1)
      as (-> & _ & -> & -> & _ & -> & _).
    repeat split.
  - destruct (existsb _ _); [|discriminate].
    destruct (snake st) as [|head rest] eqn:Hs; [congruence|].
    rewrite (drawGame_Some st head rest Hs) in Hfire. injection Hfire as <-.
    exact (tick_shape head rest st Hs Hshape).
Qed.

Lemma reachable_shape (rnd : nat -> Q) (html : Message) (st : State) :
  reachable rnd html st -> shape_ok st.
Proof.
  induction 1 as [|st ev st' Hr IH Hfire]; [apply init_shape|].
  exact (fire_shape ev st st' (reachable_invariant _ _ _ Hr) IH Hfire).
Qed.

(** X14: the snake always has one segment more than the score, and
    [Math.random] has been called exactly twice for the first food and twice
    for every point scored. *)
Theorem length_is_score_plus_one
    (rnd : nat -> Q) (html : Message) (st : State) :
  reachable rnd html st ->
  Z.of_nat (List.length (snake st)) = score st + 1 /\
  Z.of_nat (draws (page st)) = 2 * (score st + 1) /\
  0 <= score st.
Proof.
  intros Hr. destruct (reachable_shape _ _ _ Hr) as ((Hl & Hd) & _).
  destruct (reachable_invariant _ _ _ Hr) as [Hne _].
  split; [exact Hl|]. split; [exact Hd|].
  destruct (snake st); [congruence|]. cbn [List.length] in Hl. lia.
Qed.

Lemma length_is_score_plus_one_witness :
  Z.of_nat (List.length (snake at_west_wall)) = score at_west_wall + 1.
Proof.
  apply (length_is_score_plus_one half blank at_west_wall).
  apply (run_reachable half blank play_to_west_wall (init half blank));
    [apply reach_init|].
  vm_compute. reflexivity.
Defined.

(** X15: every segment of the snake and the food lie on the grid: their
    coordinates are multiples of [boxSidePxls], whatever the random numbers
    are. *)
Theorem coordinates_on_grid
    (rnd : nat -> Q) (html : Message) (st : State) :
  reachable rnd html st ->
  (forall c, In c (snake st) ->
             (boxSidePxls | x c) /\ (boxSidePxls | y c)) /\
  (boxSidePxls | x (foodCoords st)) /\ (boxSidePxls | y (foodCoords st)).
Proof.
  intros Hr. destruct (reachable_shape _ _ _ Hr) as (_ & Hg & Hf & _).
  split; [|exact Hf]. intros c Hin.
  rewrite Forall_forall in Hg. exact (Hg c Hin).
Qed.

Lemma coordinates_on_grid_witness :
  (boxSidePxls | x (foodCoords (init worst_draw blank))).
Proof.
  destruct (coordinates_on_grid worst_draw blank (init worst_draw blank)
              (reach_init worst_draw blank)) as (_ & H & _).
  exact H.
Defined.

(** X16: the snake is one connected path: every segment is the place a
    single step of [boxSidePxls] to the left, up, right or down leads to
    from the next segment, or that same place when the step was taken with
    no direction set. *)
Theorem snake_is_connected
    (rnd : nat -> Q) (html : Message) (st : State)
    (i : nat) (a b : Coord) :
  reachable rnd html st ->
  nth_error (snake st) i = Some a ->
  nth_error (snake st) (S i) = Some b ->
  (x a = x b /\ y a = y b) \/
  (y a = y b /\ (x a = x b - boxSidePxls \/ x a = x b + boxSidePxls)) \/
  (x a = x b /\ (y a = y b - boxSidePxls \/ y a = y b + boxSidePxls)).
Proof.
  intros Hr. destruct (reachable_shape _ _ _ Hr) as (_ & _ & _ & Hc).
  revert i Hc. generalize (snake st). intros l.
  induction l as [|c l IH]; intros i Hc Ha Hb; [destruct i; discriminate|].
  destruct l as [|c' l]; [destruct i as [|[|i]]; discriminate|].
  destruct Hc as [(d & Hd) Hrest].
  destruct i as [|i].
  - injection Ha as <-. injection Hb as <-. subst c.
    destruct d as [[| | |]|]; cbn; lia.
  - exact (IH i Hrest Ha Hb).
Qed.

Lemma snake_is_connected_witness :
  (x {| x := 0; y := 320 |} = x {| x := 32; y := 320 |} /\
   y {| x := 0; y := 320 |} = y {| x := 32; y := 320 |}) \/
  (y {| x := 0; y := 320 |} = y {| x := 32; y := 320 |} /\
   (x {| x := 0; y := 320 |} = x {| x := 32; y := 320 |} - boxSidePxls \/
    x {| x := 0; y := 320 |} = x {| x := 32; y := 320 |} + boxSidePxls)) \/
  (x {| x := 0; y := 320 |} = x {| x := 32; y := 320 |} /\
   (y {| x := 0; y := 320 |} = y {| x := 32; y := 320 |} - boxSidePxls \/
    y {| x := 0; y := 320 |} = y {| x := 32; y := 320 |} + boxSidePxls)).
Proof.
  apply (snake_is_connected half blank at_west_wall 0).
  - apply (run_reachable half blank play_to_west_wall (init half blank));
      [apply reach_init|].
    vm_compute. reflexivity.
  - reflexivity.
  - reflexivity.
Defined.

End Shape.

(** ** Further properties: the arena *)

Section Arena.
Import Float64.

(** X17: the wall tests of [drawGame], written with the numbers 17 and 3,
    and the arena constants describe the same rectangle: a box is outside
    for the tests exactly when its cell is outside
    [arenaX0Boxes, arenaX0Boxes + arenaWidthBoxes) x
    [arenaY0Boxes, arenaY0Boxes + arenaHeightBoxes). *)
Theorem wall_tests_match_arena (cx cy : Z) :
  outsideArena {| x := cx * boxSidePxls; y := cy * boxSidePxls |} = false <->
  arenaX0Boxes <= cx < arenaX0Boxes + arenaWidthBoxes /\
  arenaY0Boxes <= cy < arenaY0Boxes + arenaHeightBoxes.
Proof.
  unfold outsideArena, isSnakeWest, isSnakeEast, isSnakeNorth, isSnakeSouth,
    arenaX0Boxes, arenaWidthBoxes, arenaY0Boxes, arenaHeightBoxes,
    boxSidePxls; cbn [x y].
  rewrite !orb_false_iff, !Z.ltb_ge, Z.gtb_ltb, Z.ltb_ge. lia.
Qed.

(** X18: what [generateFoodCoords] returns on random numbers in [0, 1): it
    consumes two of them; the x cell is in [1, 17] and the y cell in
    [3, 18]; unless the second number is the largest one below 1 the y cell
    is at most 17 and the food lies where the wall tests let the snake
    live. *)
Theorem generateFoodCoords_range (p : Page) :
  is_double (random p (draws p)) ->
  is_double (random p (S (draws p))) ->
  (0 <= random p (draws p) < 1)%Q ->
  (0 <= random p (S (draws p)) < 1)%Q ->
  draws (snd (generateFoodCoords p)) = S (S (draws p)) /\
  random (snd (generateFoodCoords p)) = random p /\
  arenaX0Boxes * boxSidePxls <= x (fst (generateFoodCoords p))
    <= (arenaX0Boxes + arenaWidthBoxes - 1) * boxSidePxls /\
  arenaY0Boxes * boxSidePxls <= y (fst (generateFoodCoords p))
    <= (arenaY0Boxes + arenaHeightBoxes) * boxSidePxls /\
  ((random p (S (draws p)) < pred_one)%Q ->
   y (fst (generateFoodCoords p))
     <= (arenaY0Boxes + arenaHeightBoxes - 1) * boxSidePxls /\
   outsideArena (fst (generateFoodCoords p)) = false).
Proof.
  intros Hdx Hdy Hx Hy.
  unfold generateFoodCoords, Math_random;
    cbn [fst snd draws random set_draws].
  split; [reflexivity|]. split; [reflexivity|].
  pose proof (foodCoordsFrom_x_range _ (random p (S (draws p))) Hdx Hx) as Rx.
  pose proof (foodCoordsFrom_y_range (random p (draws p)) _ Hdy Hy) as Ry.
  split; [exact Rx|]. split; [exact Ry|].
  intros Hlt.
  pose proof (foodCoordsFrom_y_inside (random p (draws p)) _ Hdy
                (conj (proj1 Hy) Hlt)) as Ri.
  assert (Hgy : (boxSidePxls | y (foodCoordsFrom (random p (draws p))
                                     (random p (S (draws p))))))
    by (cbn [y foodCoordsFrom]; apply Z.divide_factor_r).
  destruct Hgy as [k Hk]. revert Rx Ri.
  unfold outsideArena, isSnakeWest, isSnakeEast, isSnakeNorth, isSnakeSouth.
  rewrite Hk.
  generalize (x (foodCoordsFrom (random p (draws p))
                   (random p (S (draws p))))).
  intros fx Rx Ri.
  unfold arenaX0Boxes, arenaWidthBoxes, arenaY0Boxes, arenaHeightBoxes,
    boxSidePxls in *.
  split; [lia|].
  rewrite !orb_false_iff, !Z.ltb_ge, Z.gtb_ltb, Z.ltb_ge. lia.
Qed.

Lemma generateFoodCoords_range_witness :
  outsideArena (fst (generateFoodCoords (page started))) = false.
Proof.
  destruct (generateFoodCoords_range (page started))
    as (_ & _ & _ & _ & H).
  - exists 1, 1073. split; [reflexivity|]. split; [lia|reflexivity].
  - exists 1, 1073. split; [reflexivity|]. split; [lia|reflexivity].
  - split; [discriminate|reflexivity].
  - split; [discriminate|reflexivity].
  - apply H. reflexivity.
Defined.

End Arena.
